(** * IPL points table: the tournament engine of [server.js]

    A shallow embedding of the in-memory tournament state of [server.js]
    (classes [TeamNode], [LinkedList], [Stack], [Queue], [IPLTournament] and
    the [POST /api/matches] handler), followed by the properties of the
    specification proved about it.

    Conventions of the embedding.
    - An integer-valued JavaScript number (a counter, a score, a point total)
      is a [Z]; this is exact while the magnitude stays below [2^53].
    - [netRunRate] is the number [parseFloat] reads back from a string with two
      decimals; it is kept as the integer count of hundredths that string
      denotes ([3000] is [30.00]).  The quotient that is rounded is the IEEE 754
      binary64 quotient, computed with the Standard Library's [SpecFloat].
    - The linked list of [TeamNode]s is the list of its nodes from [head]
      along [next]; a reference to a node is its position in that list.
    - Every node owns its [form] array (no two nodes share one array object),
      and a [form] that is given is an array of strings.
    - Strings are strings of ASCII characters; the case conversions and the
      white space are those of ASCII.
    - A method of [IPLTournament] is a function from the state of the object to
      a completion (a value or a thrown error) and the state it leaves. *)

From Stdlib Require Import ZArith Lia Ascii DecimalString.
From Stdlib Require Import Floats.SpecFloat.
From Stdlib Require DecimalPos.
From stdpp Require Import base list strings sorting.

Local Open Scope string_scope.
Local Open Scope list_scope.
Local Open Scope Z_scope.

(** ** Fragments of the JavaScript library used by the program *)

Module JS.

(** [String.prototype.toLowerCase] and [toUpperCase], on ASCII. *)
Definition lower_ascii (c : ascii) : ascii :=
  let n := nat_of_ascii c in
  if ((65 <=? n) && (n <=? 90))%nat then ascii_of_nat (n + 32) else c.

Definition upper_ascii (c : ascii) : ascii :=
  let n := nat_of_ascii c in
  if ((97 <=? n) && (n <=? 122))%nat then ascii_of_nat (n - 32) else c.

Fixpoint map_string (f : ascii → ascii) (s : string) : string :=
  match s with
  | EmptyString => EmptyString
  | String c r => String (f c) (map_string f r)
  end.

Definition toLowerCase : string → string := map_string lower_ascii.
Definition toUpperCase : string → string := map_string upper_ascii.

(** [s.split(sep)] for a one-character separator. *)
Fixpoint split (sep : ascii) (s : string) : list string :=
  match s with
  | EmptyString => [EmptyString]
  | String c r =>
      if Ascii.eqb c sep then EmptyString :: split sep r
      else match split sep r with
           | w :: ws => String c w :: ws
           | [] => [String c EmptyString]
           end
  end.

(** [w[0]]: the first character, [undefined] (here [None]) on the empty
    string. *)
Definition first_char (w : string) : option ascii :=
  match w with
  | EmptyString => None
  | String c _ => Some c
  end.

(** [a.join('')], which writes [undefined] as the empty string. *)
Fixpoint join (a : list (option ascii)) : string :=
  match a with
  | [] => EmptyString
  | None :: r => join r
  | Some c :: r => String c (join r)
  end.

(** [x || d] on strings: the empty string and [undefined] are falsy. *)
Definition or_string (x : option string) (d : string) : string :=
  match x with
  | Some (String c r) => String c r
  | _ => d
  end.

(** [x || 0] on numbers: [0] and [undefined] are falsy. *)
Definition or_zero (x : option Z) : Z :=
  match x with
  | Some z => z
  | None => 0
  end.

(** [x || []] on arrays: every array is truthy. *)
Definition or_empty {A} (x : option (list A)) : list A :=
  match x with
  | Some l => l
  | None => []
  end.

(** [a.slice(0, e)] for an integer [e]: a negative [e] counts from the end
    of the array. *)
Definition slice0 {A} (e : Z) (a : list A) : list A :=
  let len := Z.of_nat (length a) in
  let final := if e <? 0 then Z.max (len + e) 0 else Z.min e len in
  take (Z.to_nat final) a.

(** *** Numbers: division and [toFixed(2)] *)

Definition prec : Z := 53.
Definition emax : Z := 1024.

(** The binary64 number nearest to an integer. *)
Definition of_Z (z : Z) : spec_float := binary_normalize prec emax z 0 false.

(** [a / b] on numbers. *)
Definition div (a b : Z) : spec_float := SFdiv prec emax (of_Z a) (of_Z b).

(** The integer [n] for which [n / 100 - m * 2^e] is as close to zero as
    possible, the larger one if there are two. *)
Definition nearest_hundredth (m : positive) (e : Z) : Z :=
  if 0 <=? e then 100 * Z.pos m * 2 ^ e
  else (200 * Z.pos m + 2 ^ (- e)) / 2 ^ (- e + 1).

(** [parseFloat(x.toFixed(2))], in hundredths.  [toFixed] rounds the
    magnitude and writes the sign in front; from [10^21] on it writes the
    number itself, an integer.  A quotient that is not finite has no count
    of hundredths; it needs an operand of magnitude [2^1024], which no
    number has, and is given [0] here. *)
Definition toFixed2 (x : spec_float) : Z :=
  match x with
  | S754_finite s m e =>
      if s then - nearest_hundredth m e else nearest_hundredth m e
  | _ => 0
  end.

(** *** [parseInt] *)

Definition is_space (c : ascii) : bool :=
  let n := nat_of_ascii c in
  ((9 <=? n) && (n <=? 13) || (n =? 32))%nat.

Fixpoint trim_start (s : string) : string :=
  match s with
  | String c r => if is_space c then trim_start r else s
  | EmptyString => s
  end.

(** [s.trim()]: [s] without the white space at its two ends. *)
Fixpoint trim_end (s : string) : string :=
  match s with
  | EmptyString => EmptyString
  | String c r =>
      match trim_end r with
      | EmptyString => if is_space c then EmptyString else String c EmptyString
      | r' => String c r'
      end
  end.

Definition trim (s : string) : string := trim_end (trim_start s).

(** The value of a character as a digit of the given radix. *)
Definition digit (radix : Z) (c : ascii) : option Z :=
  let n := Z.of_nat (nat_of_ascii c) in
  let v := if (48 <=? n) && (n <=? 57) then Some (n - 48)
           else if (97 <=? n) && (n <=? 122) then Some (n - 87)
           else if (65 <=? n) && (n <=? 90) then Some (n - 55)
           else None in
  match v with
  | Some d => if d <? radix then Some d else None
  | None => None
  end.

(** The longest prefix of digits, read from the left; [None] when the
    first character is not a digit. *)
Fixpoint digits (radix : Z) (acc : option Z) (s : string) : option Z :=
  match s with
  | EmptyString => acc
  | String c r =>
      match digit radix c with
      | Some d => digits radix (Some (radix * default 0 acc + d)) r
      | None => acc
      end
  end.

(** [parseInt(s)] without a radix; [None] is [NaN]. *)
Definition parseInt_string (s : string) : option Z :=
  let s := trim_start s in
  let '(neg, s) :=
    match s with
    | String "-" r => (true, r)
    | String "+" r => (false, r)
    | _ => (false, s)
    end in
  let '(radix, s) :=
    match s with
    | String "0" (String "x" r) => (16, r)
    | String "0" (String "X" r) => (16, r)
    | _ => (10, s)
    end in
  match digits radix None s with
  | Some v => Some (if neg then - v else v)
  | None => None
  end.

(** The values a field of a decoded JSON body can hold, as far as the
    score fields are concerned: absent, [null], a boolean, an integer
    number or a string. *)
Inductive value :=
| Undefined
| Null
| Bool (b : bool)
| Num (z : Z)
| Str (s : string).

(** [ToString] on these values.  A number is written in plain decimal,
    as every number of magnitude below [10^21] is; the numbers meant are
    the safe integers, of magnitude below [2^53]. *)
Definition toString (v : value) : string :=
  match v with
  | Undefined => "undefined"
  | Null => "null"
  | Bool true => "true"
  | Bool false => "false"
  | Num z => NilZero.string_of_int (Z.to_int z)
  | Str s => s
  end.

Definition parseInt (v : value) : option Z := parseInt_string (toString v).

End JS.

Module Import Sort.

(** [Array.prototype.sort(comparefn)].  The language fixes the result for a
    consistent [comparefn]: the elements in the order of [comparefn], those
    that compare equal in their original order.  An insertion sort that
    puts an element in front of the first one it does not follow computes
    it. *)
Section sort.
Context {A : Type} (comparefn : A → A → Z).

Fixpoint insert (x : A) (l : list A) : list A :=
  match l with
  | [] => [x]
  | y :: l' => if 0 <? comparefn x y then y :: insert x l' else x :: l
  end.

Fixpoint sort (l : list A) : list A :=
  match l with
  | [] => []
  | x :: l' => insert x (sort l')
  end.
End sort.

End Sort.

(** ** Data structures *)

(** The object handed to [new TeamNode]: every field but the name may be
    absent. *)
Module TeamData.
Record t := mk {
  name : string;
  shortName : option string;
  captain : option string;
  homeGround : option string;
  color : option string;
  points : option Z;
  netRunRate : option Z;
  matchesPlayed : option Z;
  wins : option Z;
  losses : option Z;
  noResults : option Z;
  runsScored : option Z;
  runsConceded : option Z;
  form : option (list string)
}.
End TeamData.

(** [class TeamNode]; the [next] field is the rest of the list the node is
    in. *)
Record TeamNode := mkTeamNode {
  name : string;
  shortName : string;
  captain : string;
  homeGround : string;
  color : string;
  points : Z;
  netRunRate : Z;
  matchesPlayed : Z;
  wins : Z;
  losses : Z;
  noResults : Z;
  runsScored : Z;
  runsConceded : Z;
  form : list string
}.

(** [new TeamNode(teamData)]. *)
Definition new_TeamNode (teamData : TeamData.t) : TeamNode :=
  {| name := TeamData.name teamData;
     shortName :=
       JS.or_string (TeamData.shortName teamData)
         (JS.toUpperCase
            (JS.join
               (map JS.first_char (JS.split " " (TeamData.name teamData)))));
     captain := JS.or_string (TeamData.captain teamData) "";
     homeGround := JS.or_string (TeamData.homeGround teamData) "";
     color := JS.or_string (TeamData.color teamData) "#000000";
     points := JS.or_zero (TeamData.points teamData);
     netRunRate := JS.or_zero (TeamData.netRunRate teamData);
     matchesPlayed := JS.or_zero (TeamData.matchesPlayed teamData);
     wins := JS.or_zero (TeamData.wins teamData);
     losses := JS.or_zero (TeamData.losses teamData);
     noResults := JS.or_zero (TeamData.noResults teamData);
     runsScored := JS.or_zero (TeamData.runsScored teamData);
     runsConceded := JS.or_zero (TeamData.runsConceded teamData);
     form := JS.or_empty (TeamData.form teamData) |}.

(** Assignments to the fields that [recordMatch] writes. *)
Definition set_points (v : Z) (t : TeamNode) : TeamNode :=
  mkTeamNode (name t) (shortName t) (captain t) (homeGround t) (color t)
    v (netRunRate t) (matchesPlayed t) (wins t) (losses t) (noResults t)
    (runsScored t) (runsConceded t) (form t).

Definition set_netRunRate (v : Z) (t : TeamNode) : TeamNode :=
  mkTeamNode (name t) (shortName t) (captain t) (homeGround t) (color t)
    (points t) v (matchesPlayed t) (wins t) (losses t) (noResults t)
    (runsScored t) (runsConceded t) (form t).

Definition set_matchesPlayed (v : Z) (t : TeamNode) : TeamNode :=
  mkTeamNode (name t) (shortName t) (captain t) (homeGround t) (color t)
    (points t) (netRunRate t) v (wins t) (losses t) (noResults t)
    (runsScored t) (runsConceded t) (form t).

Definition set_wins (v : Z) (t : TeamNode) : TeamNode :=
  mkTeamNode (name t) (shortName t) (captain t) (homeGround t) (color t)
    (points t) (netRunRate t) (matchesPlayed t) v (losses t) (noResults t)
    (runsScored t) (runsConceded t) (form t).

Definition set_losses (v : Z) (t : TeamNode) : TeamNode :=
  mkTeamNode (name t) (shortName t) (captain t) (homeGround t) (color t)
    (points t) (netRunRate t) (matchesPlayed t) (wins t) v (noResults t)
    (runsScored t) (runsConceded t) (form t).

Definition set_noResults (v : Z) (t : TeamNode) : TeamNode :=
  mkTeamNode (name t) (shortName t) (captain t) (homeGround t) (color t)
    (points t) (netRunRate t) (matchesPlayed t) (wins t) (losses t) v
    (runsScored t) (runsConceded t) (form t).

Definition set_runsScored (v : Z) (t : TeamNode) : TeamNode :=
  mkTeamNode (name t) (shortName t) (captain t) (homeGround t) (color t)
    (points t) (netRunRate t) (matchesPlayed t) (wins t) (losses t)
    (noResults t) v (runsConceded t) (form t).

Definition set_runsConceded (v : Z) (t : TeamNode) : TeamNode :=
  mkTeamNode (name t) (shortName t) (captain t) (homeGround t) (color t)
    (points t) (netRunRate t) (matchesPlayed t) (wins t) (losses t)
    (noResults t) (runsScored t) v (form t).

Definition set_form (v : list string) (t : TeamNode) : TeamNode :=
  mkTeamNode (name t) (shortName t) (captain t) (homeGround t) (color t)
    (points t) (netRunRate t) (matchesPlayed t) (wins t) (losses t)
    (noResults t) (runsScored t) (runsConceded t) v.

(** [class LinkedList]: the state of the object is the list of its nodes. *)
Module LinkedList.

Abbreviation t := (list TeamNode).

Definition new : t := [].

(** [addTeam] walks to the last node and links the new one after it; it
    returns the reference to the new node. *)
Definition addTeam (teamData : TeamData.t) (l : t) : nat * t :=
  (length l, l ++ [new_TeamNode teamData]).

(** [findTeam]: the first node whose name is the given one up to case, or
    [null]. *)
Fixpoint findTeam (n : string) (l : t) : option nat :=
  match l with
  | [] => None
  | temp :: next =>
      if String.eqb (JS.toLowerCase (name temp)) (JS.toLowerCase n)
      then Some 0%nat
      else S <$> findTeam n next
  end.

(** The loop of [getAllTeams]: push the nodes from [temp] on. *)
Fixpoint getAllTeams_loop (temp : t) (teams : list TeamNode) : list TeamNode :=
  match temp with
  | [] => teams
  | node :: next => getAllTeams_loop next (teams ++ [node])
  end.

Definition getAllTeams (l : t) : list TeamNode := getAllTeams_loop l [].

(** The comparison function of [getStandings]:
    [b.points - a.points || b.netRunRate - a.netRunRate].  The difference
    of two rates has the sign of the difference of their hundredths. *)
Definition compareFn (a b : TeamNode) : Z :=
  let d := points b - points a in
  if d =? 0 then netRunRate b - netRunRate a else d.

Definition getStandings (l : t) : list TeamNode :=
  sort compareFn (getAllTeams l).

(** [findIndex]: the position of the first element satisfying the test,
    [-1] if there is none. *)
Fixpoint findIndex {A} (p : A → bool) (a : list A) : Z :=
  match a with
  | [] => -1
  | x :: r =>
      if p x then 0
      else let i := findIndex p r in if i <? 0 then -1 else i + 1
  end.

Definition getRanking (n : string) (l : t) : Z :=
  let standings := getStandings l in
  let index :=
    findIndex
      (λ t, String.eqb (JS.toLowerCase (name t)) (JS.toLowerCase n))
      standings in
  index + 1.

End LinkedList.

(** [class Stack]: the state is the array [items]. *)
Module Stack.
Section stack.
Context {A : Type}.
Definition new : list A := [].
Definition push (item : A) (items : list A) : list A := items ++ [item].
Definition pop (items : list A) : option A * list A :=
  (last items, removelast items).
Definition peek (items : list A) : option A := last items.
Definition isEmpty (items : list A) : bool :=
  (length items =? 0)%nat.
Definition size (items : list A) : nat := length items.
(** Most recent first. *)
Definition getAll (items : list A) : list A := reverse items.
End stack.
End Stack.

(** [class Queue]: the state is the array [items]. *)
Module Queue.
Section queue.
Context {A : Type}.
Definition new : list A := [].
Definition enqueue (item : A) (items : list A) : list A := items ++ [item].
Definition dequeue (items : list A) : option A * list A :=
  (head items, tail items).
Definition front (items : list A) : option A := head items.
Definition isEmpty (items : list A) : bool :=
  (length items =? 0)%nat.
Definition size (items : list A) : nat := length items.
Definition getAll (items : list A) : list A := items.
End queue.
End Queue.

(** ** The tournament *)

(** The argument of [recordMatch]. *)
Module Args.
Record t := mk {
  team1 : string;
  team2 : string;
  team1Score : Z;
  team2Score : Z
}.
End Args.

(** The [result] object of a match: [{winner: name}] or [{tie: true}]. *)
Inductive Result :=
| ResultWinner (w : string)
| ResultTie.

(** The match object pushed on the history; [date] is the reading of the
    clock when [recordMatch] runs. *)
Record Match := mkMatch {
  team1 : string;
  team2 : string;
  team1Score : Z;
  team2Score : Z;
  winner : string;
  result : Result;
  date : Z
}.

(** The data of an upcoming match is not inspected by the tournament. *)
Definition Fixture : Type := string.

(** [class IPLTournament]. *)
Record IPLTournament := mkIPLTournament {
  teams : LinkedList.t;
  matchHistory : list Match;
  upcomingMatches : list Fixture
}.

(** [new Error(message)]. *)
Inductive Error := mkError (message : string).

Definition message (e : Error) : string := let 'mkError m := e in m.

(** How a call ends: with a value or with a thrown error. *)
Inductive completion (A : Type) :=
| Normal (a : A)
| Throw (e : Error).
Arguments Normal {A} a.
Arguments Throw {A} e.

(** A method of the tournament. *)
Definition method (A : Type) : Type :=
  IPLTournament → completion A * IPLTournament.

Global Instance method_ret : MRet method := λ A a T, (Normal a, T).

Global Instance method_bind : MBind method := λ A B k m T,
  match m T with
  | (Normal a, T') => k a T'
  | (Throw e, T') => (Throw e, T')
  end.

Definition throw {A} (e : Error) : method A := λ T, (Throw e, T).

(** A read of the state. *)
Definition reads {A} (f : IPLTournament → A) : method A :=
  λ T, (Normal (f T), T).

(** A write to the node that [r] refers to. *)
Definition update (r : nat) (f : TeamNode → TeamNode) : method unit :=
  λ T, (Normal (),
        mkIPLTournament (alter f r (teams T)) (matchHistory T)
          (upcomingMatches T)).

(** [this.matchHistory.push(item)]. *)
Definition push_matchHistory (item : Match) : method unit :=
  λ T, (Normal (),
        mkIPLTournament (teams T) (Stack.push item (matchHistory T))
          (upcomingMatches T)).

Definition new_IPLTournament : IPLTournament :=
  mkIPLTournament LinkedList.new Stack.new Queue.new.

Definition addTeam (teamData : TeamData.t) : method nat :=
  λ T,
    let '(team, l) := LinkedList.addTeam teamData (teams T) in
    (Normal team, mkIPLTournament l (matchHistory T) (upcomingMatches T)).

Definition getTeamStats (n : string) : method (option nat) :=
  reads (λ T, LinkedList.findTeam n (teams T)).

Definition getStandings : method (list TeamNode) :=
  reads (λ T, LinkedList.getStandings (teams T)).

(** The NRR of a node from its own counters. *)
Definition nrr (t : TeamNode) : Z :=
  if 0 <? matchesPlayed t
  then JS.toFixed2 (JS.div (runsScored t - runsConceded t) (matchesPlayed t))
  else 0.

Definition recordMatch (a : Args.t) (now : Z) : method Match :=
  let '(Args.mk team1 team2 team1Score team2Score) := a in
  t1 ← getTeamStats team1;
  t2 ← getTeamStats team2;
  match t1, t2 with
  | Some t1, Some t2 =>
      update t1 (λ t, set_matchesPlayed (matchesPlayed t + 1) t);;
      update t2 (λ t, set_matchesPlayed (matchesPlayed t + 1) t);;
      (* Update runs *)
      update t1 (λ t, set_runsScored (runsScored t + team1Score) t);;
      update t2 (λ t, set_runsScored (runsScored t + team2Score) t);;
      update t1 (λ t, set_runsConceded (runsConceded t + team2Score) t);;
      update t2 (λ t, set_runsConceded (runsConceded t + team1Score) t);;
      (* Automatically determine winner based on scores *)
      '(result, winner) ←
        (if team2Score <? team1Score then
           update t1 (λ t, set_wins (wins t + 1) t);;
           update t2 (λ t, set_losses (losses t + 1) t);;
           update t1 (λ t, set_points (points t + 2) t);;
           update t1 (λ t, set_form ("W" :: form t) t);;
           update t2 (λ t, set_form ("L" :: form t) t);;
           mret (ResultWinner team1, team1)
         else if team1Score <? team2Score then
           update t2 (λ t, set_wins (wins t + 1) t);;
           update t1 (λ t, set_losses (losses t + 1) t);;
           update t2 (λ t, set_points (points t + 2) t);;
           update t2 (λ t, set_form ("W" :: form t) t);;
           update t1 (λ t, set_form ("L" :: form t) t);;
           mret (ResultWinner team2, team2)
         else
           (* Tie *)
           update t1 (λ t, set_noResults (noResults t + 1) t);;
           update t2 (λ t, set_noResults (noResults t + 1) t);;
           update t1 (λ t, set_points (points t + 1) t);;
           update t2 (λ t, set_points (points t + 1) t);;
           update t1 (λ t, set_form ("T" :: form t) t);;
           update t2 (λ t, set_form ("T" :: form t) t);;
           mret (ResultTie, "Tie"));
      (* Update NRR *)
      update t1 (λ t, set_netRunRate (nrr t) t);;
      update t2 (λ t, set_netRunRate (nrr t) t);;
      (* Limit form history to last 5 matches *)
      update t1 (λ t, set_form (JS.slice0 5 (form t)) t);;
      update t2 (λ t, set_form (JS.slice0 5 (form t)) t);;
      let match_ :=
        mkMatch team1 team2 team1Score team2Score winner result now in
      push_matchHistory match_;;
      mret match_
  | _, _ => throw (mkError "Team not found")
  end.

Definition getMatchHistory (limit : option Z) : method (list Match) :=
  let limit := default 50 limit in
  reads (λ T, JS.slice0 limit (Stack.getAll (matchHistory T))).

Definition getPlayoffTeams : method (list TeamNode) :=
  standings ← getStandings;
  mret (JS.slice0 4 standings).

Definition addUpcomingMatch (matchData : Fixture) : method unit :=
  λ T, (Normal (),
        mkIPLTournament (teams T) (matchHistory T)
          (Queue.enqueue matchData (upcomingMatches T))).

Definition getUpcomingMatches : method (list Fixture) :=
  reads (λ T, Queue.getAll (upcomingMatches T)).

Definition resetTournament : method unit :=
  λ _, (Normal (), mkIPLTournament LinkedList.new Stack.new Queue.new).

(** [getTournamentStats]: the number of teams, the number of matches played
    and the names of the playoff teams. *)
Definition getTournamentStats : method (nat * nat * list string) :=
  totalTeams ← reads (λ T, length (LinkedList.getAllTeams (teams T)));
  played ← reads (λ T, Stack.size (matchHistory T));
  playoffTeams ← getPlayoffTeams;
  mret (totalTeams, played, map name playoffTeams).

(** ** The server's tournament *)

(** An entry of the list in [initializeIPLTeams]. *)
Definition team (n short cap ground col : string) : TeamData.t :=
  TeamData.mk n (Some short) (Some cap) (Some ground) (Some col)
    None None None None None None None None None.

Definition ipl_teams : list TeamData.t :=
  [ team "Mumbai Indians" "MI" "Hardik Pandya" "Wankhede Stadium" "#004B9B";
    team "Chennai Super Kings" "CSK" "MS Dhoni" "M.A. Chidambaram Stadium"
      "#F9CD05";
    team "Royal Challengers Bangalore" "RCB" "Faf du Plessis"
      "M. Chinnaswamy Stadium" "#EC1C24";
    team "Kolkata Knight Riders" "KKR" "Shreyas Iyer" "Eden Gardens" "#3A225D";
    team "Delhi Capitals" "DC" "Rishabh Pant" "Arun Jaitley Stadium" "#17479E";
    team "Punjab Kings" "PBKS" "Shikhar Dhawan" "IS Bindra Stadium" "#DD1F2D";
    team "Rajasthan Royals" "RR" "Sanju Samson" "Sawai Mansingh Stadium"
      "#E01A85";
    team "Sunrisers Hyderabad" "SRH" "Pat Cummins" "Rajiv Gandhi Intl Stadium"
      "#FF822A";
    team "Gujarat Titans" "GT" "Shubman Gill" "Narendra Modi Stadium" "#1B2133";
    team "Lucknow Super Giants" "LSG" "KL Rahul" "Ekana Cricket Stadium"
      "#1FB8EA" ].

(** [teams.forEach(team => tournament.addTeam(team))]. *)
Definition initializeIPLTeams : method unit :=
  foldr (λ teamData rest, addTeam teamData;; rest) (mret ()) ipl_teams.

(** The tournament the server starts with. *)
Definition server_tournament : IPLTournament :=
  (initializeIPLTeams new_IPLTournament).2.

(** ** The [POST /api/matches] route *)

Module Body.
(** The fields the handler reads from the request body; a team name is a
    string when it is present. *)
Record t := mk {
  team1 : option string;
  team2 : option string;
  team1Score : JS.value;
  team2Score : JS.value
}.
End Body.

(** What the handler sends: the status and the JSON object. *)
Record Response := mkResponse {
  status : Z;
  success : bool;
  data : option Match;
  response_message : string
}.

(** The outcome of a request: the response, the calls made to
    [tournament.recordMatch] and the state of the tournament. *)
Record Handled := mkHandled {
  response : Response;
  core_calls : list Args.t;
  tournament : IPLTournament
}.

(** [!name]: an absent name and the empty string are falsy. *)
Definition missing (n : option string) : bool :=
  match n with
  | Some (String _ _) => false
  | _ => true
  end.

(** [parseInt(x) || 0]: [NaN] and [0] are falsy. *)
Definition score_of (x : JS.value) : Z := JS.or_zero (JS.parseInt x).

Definition post_matches (body : Body.t) (now : Z) (T : IPLTournament) : Handled :=
  let '(Body.mk team1 team2 team1Score team2Score) := body in
  if missing team1 || missing team2 then
    mkHandled (mkResponse 400 false None "Both teams are required") [] T
  else
    let score1 := score_of team1Score in
    let score2 := score_of team2Score in
    if (score1 =? 0) && (score2 =? 0) then
      mkHandled
        (mkResponse 400 false None "Please enter scores for both teams") [] T
    else
      let a := Args.mk (default "" team1) (default "" team2) score1 score2 in
      match recordMatch a now T with
      | (Normal match_, T') =>
          mkHandled
            (mkResponse 200 true (Some match_)
               ("Match recorded - " +:+ winner match_ +:+ " won!"))
            [a] T'
      | (Throw error, T') =>
          mkHandled (mkResponse 400 false None (message error)) [a] T'
      end.

(** ** The [POST /api/teams] route *)

(** What the handler sends and the tournament it leaves; [teams_data] is the
    new node as it is when the response is written. *)
Record TeamsHandled := mkTeamsHandled {
  teams_status : Z;
  teams_success : bool;
  teams_data : option TeamNode;
  teams_message : string;
  teams_tournament : IPLTournament
}.

(** The body is the [teamData] handed on to [addTeam]; [None] is a body
    without a name.  [teamData.name?.trim()] is falsy when the name is
    absent or blank.  Neither [getTeamStats] nor [addTeam] throws; an error
    that left the handler would be answered with status 500. *)
Definition post_teams (body : option TeamData.t) (T : IPLTournament) :
    TeamsHandled :=
  let teamName :=
    match body with
    | Some teamData => JS.trim (TeamData.name teamData)
    | None => ""
    end in
  match body, teamName with
  | Some teamData, String _ _ =>
      match getTeamStats teamName T with
      | (Normal (Some _), T') =>
          mkTeamsHandled 409 false None "Team already exists" T'
      | (Normal None, T') =>
          match addTeam teamData T' with
          | (Normal team, T'') =>
              mkTeamsHandled 201 true (teams T'' !! team)
                "Team added successfully" T''
          | (Throw error, T'') =>
              mkTeamsHandled 500 false None (message error) T''
          end
      | (Throw error, T') => mkTeamsHandled 500 false None (message error) T'
      end
  | _, _ => mkTeamsHandled 400 false None "Team name is required" T
  end.

(** ** The read routes *)

(** [GET /api/matches/history]: the history with the default limit. *)
Definition get_matches_history : method (list Match) := getMatchHistory None.

(** ** Notions used in the statements *)

(** [x] does not follow [y] in the order of a comparison function. *)
Definition before {A} (comparefn : A → A → Z) (x y : A) : Prop :=
  comparefn x y ≤ 0.

(** Descending points, and descending net run rate among equal points. *)
Definition standings_order (a b : TeamNode) : Prop :=
  points b < points a ∨ (points b = points a ∧ netRunRate b ≤ netRunRate a).

(** The counters of a node add up. *)
Definition consistent (t : TeamNode) : Prop :=
  matchesPlayed t = wins t + losses t + noResults t.

(** A registration that leaves the four match counters at zero. *)
Definition zeroed (teamData : TeamData.t) : bool :=
  (JS.or_zero (TeamData.matchesPlayed teamData) =? 0)
  && (JS.or_zero (TeamData.wins teamData) =? 0)
  && (JS.or_zero (TeamData.losses teamData) =? 0)
  && (JS.or_zero (TeamData.noResults teamData) =? 0).

(** The calls that change a tournament. *)
Inductive call :=
| CallAddTeam (teamData : TeamData.t)
| CallRecordMatch (a : Args.t) (now : Z)
| CallAddUpcomingMatch (matchData : Fixture)
| CallResetTournament.

(** The state a call leaves, whether it returns or throws. *)
Definition after (c : call) (T : IPLTournament) : IPLTournament :=
  match c with
  | CallAddTeam teamData => (addTeam teamData T).2
  | CallRecordMatch a now => (recordMatch a now T).2
  | CallAddUpcomingMatch matchData => (addUpcomingMatch matchData T).2
  | CallResetTournament => (resetTournament T).2
  end.

(** The states a sequence of calls goes through, one after each call. *)
Fixpoint states (cs : list call) (T : IPLTournament) : list IPLTournament :=
  match cs with
  | [] => []
  | c :: cs' => after c T :: states cs' (after c T)
  end.

Definition registers_zeroed (c : call) : bool :=
  match c with
  | CallAddTeam teamData => zeroed teamData
  | _ => true
  end.

(** What a match does to a node that takes part in it once, having scored
    [mine] against [theirs]. *)
Definition settled (mine theirs : Z) (t : TeamNode) : TeamNode :=
  let won := theirs <? mine in
  let lost := mine <? theirs in
  let t' :=
    mkTeamNode (name t) (shortName t) (captain t) (homeGround t) (color t)
      (if won then points t + 2 else if lost then points t else points t + 1)
      (netRunRate t)
      (matchesPlayed t + 1)
      (if won then wins t + 1 else wins t)
      (if won then losses t else if lost then losses t + 1 else losses t)
      (if won then noResults t else if lost then noResults t
       else noResults t + 1)
      (runsScored t + mine)
      (runsConceded t + theirs)
      ((if won then "W" else if lost then "L" else "T") :: form t) in
  set_form (JS.slice0 5 (form t')) (set_netRunRate (nrr t') t').

(** What a match does to a node that is both of its teams. *)
Definition settled_twice (score1 score2 : Z) (t : TeamNode) : TeamNode :=
  let decided := (score2 <? score1) || (score1 <? score2) in
  let t' :=
    mkTeamNode (name t) (shortName t) (captain t) (homeGround t) (color t)
      (if decided then points t + 2 else points t + 1 + 1)
      (netRunRate t)
      (matchesPlayed t + 1 + 1)
      (if decided then wins t + 1 else wins t)
      (if decided then losses t + 1 else losses t)
      (if decided then noResults t else noResults t + 1 + 1)
      (runsScored t + score1 + score2)
      (runsConceded t + score2 + score1)
      (if decided then "L" :: "W" :: form t else "T" :: "T" :: form t) in
  set_form (JS.slice0 5 (JS.slice0 5 (form t')))
    (set_netRunRate (nrr t') t').

(** The match object that [recordMatch] builds. *)
Definition recorded (a : Args.t) (now : Z) : Match :=
  let '(Args.mk team1 team2 team1Score team2Score) := a in
  if team2Score <? team1Score then
    mkMatch team1 team2 team1Score team2Score team1 (ResultWinner team1) now
  else if team1Score <? team2Score then
    mkMatch team1 team2 team1Score team2Score team2 (ResultWinner team2) now
  else
    mkMatch team1 team2 team1Score team2Score "Tie" ResultTie now.

(** The sum of a counter over the teams. *)
Definition total (f : TeamNode → Z) (l : list TeamNode) : Z :=
  foldr (λ t s, f t + s) 0 l.

(** A registration that gives no counter (or zero) and no form. *)
Definition fresh (teamData : TeamData.t) : bool :=
  zeroed teamData
  && (JS.or_zero (TeamData.points teamData) =? 0)
  && (JS.or_zero (TeamData.runsScored teamData) =? 0)
  && (JS.or_zero (TeamData.runsConceded teamData) =? 0)
  && (length (JS.or_empty (TeamData.form teamData)) =? 0)%nat.

Definition registers_fresh (c : call) : bool :=
  match c with
  | CallAddTeam teamData => fresh teamData
  | _ => true
  end.

(** What holds of a team that has only been written by [recordMatch]. *)
Definition earned (t : TeamNode) : Prop :=
  points t = 2 * wins t + noResults t
  ∧ 0 ≤ matchesPlayed t
  ∧ length (form t) = Nat.min 5 (Z.to_nat (matchesPlayed t))
  ∧ Forall (λ o, o = "W" ∨ o = "L" ∨ o = "T") (form t).

(** What holds of the counters of a tournament as a whole. *)
Definition balanced (T : IPLTournament) : Prop :=
  total points (teams T) = 2 * Z.of_nat (length (matchHistory T))
  ∧ total matchesPlayed (teams T) = 2 * Z.of_nat (length (matchHistory T))
  ∧ total wins (teams T) = total losses (teams T)
  ∧ total runsScored (teams T) = total runsConceded (teams T).

(** No two nodes have the same name up to case. *)
Definition unique_names (l : list TeamNode) : Prop :=
  NoDup (map (λ t, JS.toLowerCase (name t)) l).

(** The quotient [d / mp] rounded to two decimals as in arithmetic, in
    hundredths: the hundredth nearest to the exact quotient, the one away
    from zero when two are as near. *)
Definition round_half_away (d mp : Z) : Z :=
  Z.sgn d * ((200 * Z.abs d + mp) / (2 * mp)).

(** [n] hundredths are what [toFixed(2)] makes of the number of sign [s] and
    magnitude [m * 2^e]: the sign in front of [N / 100], where [N] is the
    integer for which [N / 100 - m * 2^e] is as close to zero as possible,
    the larger one if there are two. *)
Definition nearest_hundredths (s : bool) (m : positive) (e : Z) (n : Z) : Prop :=
  ∃ N k,
    n = (if s then - N else N) ∧ 0 ≤ N ∧ k = Z.max 0 (- e)
    ∧ (2 * N - 1) * 2 ^ k ≤ 200 * Z.pos m * 2 ^ (e + k) < (2 * N + 1) * 2 ^ k.

(** The rational [a / b] lies at the mantissa of [mrs], with the round bit
    and the sticky bit of [mrs]: [m <= a / b < m + 1], the round bit says
    whether [a / b] has reached [m + 1/2], and the sticky bit is clear when
    [a / b] is [m] or [m + 1/2] exactly. *)
Definition located (a b : Z) (mrs : shr_record) : Prop :=
  0 < b ∧ 0 ≤ shr_m mrs ∧ shr_m mrs * b ≤ a < (shr_m mrs + 1) * b
  ∧ (shr_r mrs = true ↔ b ≤ 2 * (a - shr_m mrs * b))
  ∧ (shr_s mrs = false ↔ a = shr_m mrs * b ∨ 2 * (a - shr_m mrs * b) = b).

(** The first characters of the words of a name: the characters other than
    a space that are first or come after a space. *)
Fixpoint initials (start : bool) (s : string) : string :=
  match s with
  | EmptyString => EmptyString
  | String c r =>
      if Ascii.eqb c " " then initials true r
      else if start then String c (initials false r)
      else initials false r
  end.

(** A string of ASCII characters. *)
Definition ascii_only (s : string) : Prop :=
  Forall (λ c, (nat_of_ascii c < 128)%nat) (String.list_ascii_of_string s).

(** The tournaments the server goes through when the teams are registered
    without a form: the one it starts with, and the one a request to
    [/api/matches] or such a request to [/api/teams] leaves. *)
Inductive served : IPLTournament → Prop :=
| served_start : served server_tournament
| served_match body now T :
    served T → served (tournament (post_matches body now T))
| served_team teamData T :
    TeamData.form teamData = None →
    served T → served (teams_tournament (post_teams (Some teamData) T)).

(** ** Sample data *)

(** A registration that gives the name only. *)
Definition named (n : string) : TeamData.t :=
  TeamData.mk n None None None None None None None None None None None None
    None.

(** The tournament after registering Alpha and Beta. *)
Definition two_teams : IPLTournament :=
  ((addTeam (named "Alpha");; addTeam (named "Beta")) new_IPLTournament).2.

(** A session: two registrations, a win, a tie, a match of a team against
    itself, a match with an unknown team, an announced match. *)
Definition session : list call :=
  [ CallAddTeam (named "Alpha");
    CallAddTeam (named "Beta");
    CallRecordMatch (Args.mk "Alpha" "Beta" 180 150) 1;
    CallRecordMatch (Args.mk "beta" "ALPHA" 150 150) 2;
    CallRecordMatch (Args.mk "Alpha" "alpha" 10 20) 3;
    CallRecordMatch (Args.mk "Ghost" "Alpha" 100 90) 4;
    CallAddUpcomingMatch "Alpha v Beta" ].

(** A registration with a form of six entries, and the tournament after
    registering it third. *)
Definition long_form : TeamData.t :=
  TeamData.mk "Gamma" None None None None None None None None None None None
    None (Some ["W"; "W"; "L"; "W"; "T"; "L"]).

Definition three_teams : IPLTournament := (addTeam long_form two_teams).2.

(** A request body whose first score is absent. *)
Definition body_without_score1 : Body.t :=
  Body.mk (Some "Mumbai Indians") (Some "Chennai Super Kings")
    JS.Undefined (JS.Num 150).

(** A request body with two scores that are not numbers. *)
Definition body_without_scores : Body.t :=
  Body.mk (Some "Mumbai Indians") (Some "Chennai Super Kings")
    JS.Undefined (JS.Str "n/a").

(** The tournament after Alpha has beaten Beta by 180 to 150. *)
Definition one_match : IPLTournament :=
  (recordMatch (Args.mk "Alpha" "Beta" 180 150) 0 two_teams).2.

(** A request body that names a team nobody registered. *)
Definition body_with_ghost : Body.t :=
  Body.mk (Some "Ghost") (Some "Mumbai Indians") (JS.Num 100) (JS.Num 90).

(** A registration whose name has a space in front. *)
Definition spaced : TeamData.t := named " Gamma".

(** Forty matches of Alpha against Beta: 43 to 0, then 39 times 1 to 1. *)
Definition forty_matches : list call :=
  CallRecordMatch (Args.mk "Alpha" "Beta" 43 0) 1
  :: replicate 39 (CallRecordMatch (Args.mk "Alpha" "Beta" 1 1) 2).

(** The tournament after the two registrations and the forty matches. *)
Definition after_forty_matches : IPLTournament :=
  foldl (λ T c, after c T) two_teams forty_matches.

(** The tournament after five matches of Alpha against Beta, recorded at
    the times 1 to 5. *)
Definition five_matches : IPLTournament :=
  foldl (λ T now, after (CallRecordMatch (Args.mk "Alpha" "Beta" 180 150) now) T)
    two_teams [1; 2; 3; 4; 5].

(** ** Facts about the library fragments *)

Section sort_facts.
Context {A : Type} (comparefn : A → A → Z).
Hypothesis comparefn_total : ∀ x y, 0 < comparefn x y → comparefn y x ≤ 0.
Hypothesis before_trans :
  ∀ x y z, before comparefn x y → before comparefn y z → before comparefn x z.

Lemma insert_Permutation x l : insert comparefn x l ≡ₚ x :: l.
Proof.
  induction l as [|y l IH]; simpl; [done|].
  destruct (0 <? comparefn x y); [|done].
  rewrite IH. apply Permutation_swap.
Qed.

Lemma sort_Permutation l : sort comparefn l ≡ₚ l.
Proof.
  induction l as [|x l IH]; simpl; [done|].
  by rewrite insert_Permutation, IH.
Qed.

Lemma insert_StronglySorted x l :
  StronglySorted (before comparefn) l →
  StronglySorted (before comparefn) (insert comparefn x l).
Proof.
  induction 1 as [|y l Hl IH Hy]; simpl.
  - repeat constructor.
  - destruct (Z.ltb_spec 0 (comparefn x y)) as [Hxy|Hxy].
    + constructor; [done|].
      rewrite insert_Permutation. constructor; [|done].
      by apply comparefn_total.
    + constructor; [by constructor|].
      constructor; [done|].
      eapply Forall_impl; [exact Hy|].
      intros z Hz. by apply before_trans with y.
Qed.

Lemma sort_StronglySorted l : StronglySorted (before comparefn) (sort comparefn l).
Proof.
  induction l as [|x l IH]; simpl; [constructor|].
  by apply insert_StronglySorted.
Qed.
End sort_facts.

Lemma StronglySorted_weaken {A} (R1 R2 : A → A → Prop) l :
  (∀ x y, R1 x y → R2 x y) → StronglySorted R1 l → StronglySorted R2 l.
Proof.
  intros HR. induction 1 as [|x l Hl IH Hx]; constructor; [done|].
  eapply Forall_impl; [exact Hx|]. intros y. apply HR.
Qed.

Lemma before_compareFn a b :
  before LinkedList.compareFn a b ↔ standings_order a b.
Proof.
  unfold before, LinkedList.compareFn, standings_order.
  destruct (Z.eqb_spec (points b - points a) 0); lia.
Qed.

Lemma getAllTeams_loop_app temp teams :
  LinkedList.getAllTeams_loop temp teams = teams ++ temp.
Proof.
  revert teams. induction temp as [|node next IH]; intros teams; simpl.
  - by rewrite app_nil_r.
  - by rewrite IH, <- app_assoc.
Qed.

Lemma getAllTeams_nodes l : LinkedList.getAllTeams l = l.
Proof. apply getAllTeams_loop_app. Qed.

Lemma getStandings_Permutation l :
  LinkedList.getStandings l ≡ₚ LinkedList.getAllTeams l.
Proof. apply sort_Permutation. Qed.

Lemma getStandings_sorted l :
  StronglySorted standings_order (LinkedList.getStandings l).
Proof.
  eapply StronglySorted_weaken; [|apply sort_StronglySorted].
  - intros a b. apply before_compareFn.
  - intros x y. unfold LinkedList.compareFn.
    destruct (Z.eqb_spec (points y - points x) 0),
      (Z.eqb_spec (points x - points y) 0); lia.
  - intros x y z. rewrite !before_compareFn. unfold standings_order. lia.
Qed.

Section sort_stable.
Context {A : Type} (comparefn : A → A → Z).
Hypothesis comparefn_equal :
  ∀ z x y, comparefn z x = 0 → 0 < comparefn x y → comparefn z y ≠ 0.

Lemma insert_filter_equal z x l :
  filter (λ u, comparefn z u = 0) (insert comparefn x l)
  = filter (λ u, comparefn z u = 0) (x :: l).
Proof.
  induction l as [|y l IH]; simpl; [done|].
  destruct (Z.ltb_spec 0 (comparefn x y)) as [Hxy|Hxy]; [|done].
  rewrite (filter_cons _ y), IH, !filter_cons.
  destruct (decide (comparefn z x = 0)) as [Hx|Hx]; [|done].
  destruct (decide (comparefn z y = 0)) as [Hy|Hy]; [|done].
  by destruct (comparefn_equal z x y).
Qed.

(** The elements that compare equal keep their order. *)
Lemma sort_stable z l :
  filter (λ u, comparefn z u = 0) (sort comparefn l)
  = filter (λ u, comparefn z u = 0) l.
Proof.
  induction l as [|x l IH]; simpl; [done|].
  by rewrite insert_filter_equal, !filter_cons, IH.
Qed.
End sort_stable.

(** Teams with the same points and the same net run rate stand in the order
    of their registration. *)
Lemma getStandings_stable t l :
  filter (λ u, LinkedList.compareFn t u = 0) (LinkedList.getStandings l)
  = filter (λ u, LinkedList.compareFn t u = 0) l.
Proof.
  unfold LinkedList.getStandings. rewrite getAllTeams_nodes.
  apply sort_stable. intros z x y. unfold LinkedList.compareFn.
  destruct (Z.eqb_spec (points x - points z) 0),
    (Z.eqb_spec (points y - points x) 0),
    (Z.eqb_spec (points y - points z) 0); lia.
Qed.

(** *** Binary64 division *)

Lemma binary_round_aux_opp s m e l :
  binary_round_aux JS.prec JS.emax (negb s) m e l
  = SFopp (binary_round_aux JS.prec JS.emax s m e l).
Proof.
  unfold binary_round_aux.
  destruct (shr_fexp JS.prec JS.emax m e l) as [mrs' e'].
  destruct (shr_fexp JS.prec JS.emax _ e' loc_Exact) as [mrs'' e''].
  destruct (shr_m mrs''); [done| |done].
  by destruct (Z.leb e'' (Z.sub JS.emax JS.prec)).
Qed.

Lemma SFdiv_opp x y :
  SFdiv JS.prec JS.emax (SFopp x) y = SFopp (SFdiv JS.prec JS.emax x y).
Proof.
  destruct x as [sx|sx| |sx mx ex], y as [sy|sy| |sy my ey]; simpl;
    try done; try by destruct sx, sy.
  destruct (SFdiv_core_binary JS.prec JS.emax (Z.pos mx) ex (Z.pos my) ey)
    as [[mz ez] lz].
  rewrite <- binary_round_aux_opp. by destruct sx, sy.
Qed.

Lemma toFixed2_opp x : JS.toFixed2 (SFopp x) = - JS.toFixed2 x.
Proof.
  destruct x as [s|s| |s m e]; simpl; try done.
  destruct s; simpl; lia.
Qed.

Lemma of_Z_opp z : z ≠ 0 → JS.of_Z (- z) = SFopp (JS.of_Z z).
Proof.
  unfold JS.of_Z, binary_normalize, binary_round.
  destruct z as [|p|p]; [done|..]; intros _.
  - change (- Z.pos p) with (Z.neg p). cbv beta iota.
    destruct (shl_align _ _ _) as [mz ez].
    apply (binary_round_aux_opp false).
  - change (- Z.neg p) with (Z.pos p). cbv beta iota.
    destruct (shl_align _ _ _) as [mz ez].
    rewrite <- (binary_round_aux_opp true). done.
Qed.

Lemma toFixed2_div_opp a b :
  JS.toFixed2 (JS.div (- a) b) = - JS.toFixed2 (JS.div a b).
Proof.
  destruct (decide (a = 0)) as [->|Ha].
  - simpl. unfold JS.div. change (JS.of_Z 0) with (S754_zero false).
    by destruct (JS.of_Z b) as [[]|[]| |[] ? ?].
  - unfold JS.div. by rewrite of_Z_opp, SFdiv_opp, toFixed2_opp.
Qed.

(** The exponent of a binary64 number that is not subnormal. *)
Lemma fexp_normal e : -1021 ≤ e → fexp JS.prec JS.emax e = e - 53.
Proof. unfold fexp, emin, JS.prec, JS.emax. lia. Qed.

(** The number of binary digits of a positive number. *)
Lemma digits2_pos_bounds p :
  2 ^ (Z.pos (digits2_pos p) - 1) ≤ Z.pos p < 2 ^ Z.pos (digits2_pos p).
Proof.
  induction p as [p IH|p IH|]; cbn [digits2_pos]; [| |cbn; lia].
  all: rewrite Pos2Z.inj_succ;
    replace (Z.succ (Z.pos (digits2_pos p)) - 1) with (Z.succ (Z.pos (digits2_pos p) - 1)) by lia;
    rewrite !Z.pow_succ_r by lia; lia.
Qed.

Lemma digits2_pos_unique p k :
  2 ^ (k - 1) ≤ Z.pos p < 2 ^ k → Z.pos (digits2_pos p) = k.
Proof.
  intros [Hl Hu]. pose proof (digits2_pos_bounds p) as [Hl' Hu'].
  assert (0 < k).
  { destruct (Z.lt_trichotomy k 0) as [?|[->|?]]; [|cbn in Hu; lia|done].
    rewrite Z.pow_neg_r in Hu by lia. lia. }
  assert (k - 1 < Z.pos (digits2_pos p)).
  { apply (Z.pow_lt_mono_r_iff 2); lia. }
  assert (Z.pos (digits2_pos p) - 1 < k).
  { apply (Z.pow_lt_mono_r_iff 2); lia. }
  lia.
Qed.

Lemma iter_xO p k : Z.pos (Pos.iter xO p k) = Z.pos p * 2 ^ Z.pos k.
Proof.
  induction k as [|k IH] using Pos.peano_ind; [cbn; lia|].
  rewrite Pos.iter_succ, Pos2Z.inj_xO, IH, Pos2Z.inj_succ, Z.pow_succ_r by lia. lia.
Qed.

(** A mantissa of 53 digits is not rounded. *)
Lemma binary_round_aux_exact s m e :
  2 ^ 52 ≤ Z.pos m < 2 ^ 53 → -1074 ≤ e ≤ 971 →
  binary_round_aux JS.prec JS.emax s (Z.pos m) e loc_Exact = S754_finite s m e.
Proof.
  intros Hm He. unfold binary_round_aux, shr_fexp. cbn [Zdigits2 shr_record_of_loc].
  rewrite (digits2_pos_unique m 53) by (cbn; lia).
  rewrite fexp_normal by lia. replace (53 + e - 53 - e) with 0 by lia.
  cbn [shr shr_m loc_of_shr_record round_nearest_even Zdigits2 shr_record_of_loc].
  rewrite (digits2_pos_unique m 53) by (cbn; lia).
  rewrite fexp_normal by lia. replace (53 + e - 53 - e) with 0 by lia.
  cbn [shr shr_m]. unfold JS.emax, JS.prec.
  destruct (Z.leb_spec e (1024 - 53)); [done|lia].
Qed.

(** A positive integer below [2^53] is a binary64 number: [of_Z] gives it
    exactly, with a mantissa of 53 digits. *)
Lemma of_Z_normal d :
  0 < d < 2 ^ 53 →
  ∃ m e, JS.of_Z d = S754_finite false m e
    ∧ 2 ^ 52 ≤ Z.pos m < 2 ^ 53 ∧ -52 ≤ e ≤ 0 ∧ Z.pos m = d * 2 ^ (- e).
Proof.
  intros Hd. destruct d as [|p|p]; [lia| |lia].
  unfold JS.of_Z, binary_normalize, binary_round, shl_align.
  pose proof (digits2_pos_bounds p) as Hp.
  assert (Z.pos (digits2_pos p) ≤ 53).
  { assert (Z.pos (digits2_pos p) - 1 < 53); [|lia].
    apply (Z.pow_lt_mono_r_iff 2); lia. }
  rewrite fexp_normal by lia.
  destruct (Z.pos (digits2_pos p) + 0 - 53 - 0) as [|k|k] eqn:Hk; [|lia|].
  - replace (Z.pos (digits2_pos p)) with 53 in Hp by lia.
    change (2 ^ (53 - 1)) with (2 ^ 52) in Hp.
    exists p, 0. rewrite binary_round_aux_exact by lia.
    change (2 ^ (- 0)) with 1. repeat split; lia.
  - assert (Hm : 2 ^ 52 ≤ Z.pos (Pos.iter xO p k) < 2 ^ 53).
    { rewrite iter_xO. replace (Z.pos k) with (53 - Z.pos (digits2_pos p)) by lia.
      split.
      - replace 52 with ((Z.pos (digits2_pos p) - 1) + (53 - Z.pos (digits2_pos p))) at 1 by lia.
        rewrite Z.pow_add_r by lia. apply Z.mul_le_mono_nonneg_r; [apply Z.pow_nonneg|]; lia.
      - replace 53 with (Z.pos (digits2_pos p) + (53 - Z.pos (digits2_pos p))) at 2 by lia.
        rewrite Z.pow_add_r by lia. apply Z.mul_lt_mono_pos_r; [apply Z.pow_pos_nonneg|]; lia. }
    exists (Pos.iter xO p k), (Z.pos (digits2_pos p) + 0 - 53).
    rewrite binary_round_aux_exact by lia.
    repeat split; try lia. rewrite iter_xO. f_equal. f_equal. lia.
Qed.

Lemma bool_iff_true (c : bool) (P : Prop) :
  (c = true ↔ P) → if c then P else ¬ P.
Proof. destruct c; intros [H1 H2]; [auto|]. intros H. by apply H2 in H. Qed.

Lemma bool_iff_false (c : bool) (P : Prop) :
  (c = false ↔ P) → if c then ¬ P else P.
Proof. destruct c; intros [H1 H2]; [|auto]. intros H. by apply H2 in H. Qed.

Lemma iff_bool_true (c : bool) (P : Prop) :
  (if c then P else ¬ P) → (c = true ↔ P).
Proof. destruct c; intros H; split; try done. Qed.

Lemma iff_bool_false (c : bool) (P : Prop) :
  (if c then ¬ P else P) → (c = false ↔ P).
Proof. destruct c; intros H; split; try done. Qed.

(** Shifting by one digit keeps the location, in units twice as large. *)
Lemma located_shr_1 a b mrs : located a b mrs → located a (2 * b) (shr_1 mrs).
Proof.
  destruct mrs as [m r s]. unfold located. cbn [shr_m shr_r shr_s].
  intros (Hb & Hm & Ha & Hr%bool_iff_true & Hs%bool_iff_false).
  destruct m as [|[p|p|]|p]; [| | | |lia]; cbn [shr_1 shr_m shr_r shr_s].
  all: try rewrite (Pos2Z.inj_xI p) in *; try rewrite (Pos2Z.inj_xO p) in *.
  all: split; [lia|]; split; [lia|]; split; [timeout 10 lia|].
  all: split; [apply iff_bool_true|apply iff_bool_false].
  all: destruct r, s; cbn [orb]; timeout 10 lia.
Qed.

Lemma located_iter_shr_1 a n : ∀ b mrs,
  located a b mrs → located a (2 ^ Z.pos n * b) (SpecFloat.iter_pos shr_1 n mrs).
Proof.
  induction n as [n IH|n IH|]; intros b mrs H; cbn [SpecFloat.iter_pos].
  - apply located_shr_1, IH, IH in H.
    replace (2 ^ Z.pos n~1 * b) with (2 ^ Z.pos n * (2 ^ Z.pos n * (2 * b))); [done|].
    rewrite (Pos2Z.inj_xI n), Z.pow_add_r, Z.pow_mul_r by lia.
    change (2 ^ 1) with 2. change (2 ^ 2) with 4.
    replace (4 ^ Z.pos n) with (2 ^ Z.pos n * 2 ^ Z.pos n); [ring|].
    rewrite <-Z.pow_mul_l. done.
  - apply IH, IH in H.
    replace (2 ^ Z.pos n~0 * b) with (2 ^ Z.pos n * (2 ^ Z.pos n * b)); [done|].
    rewrite (Pos2Z.inj_xO n), Z.pow_mul_r by lia. change (2 ^ 2) with 4.
    replace (4 ^ Z.pos n) with (2 ^ Z.pos n * 2 ^ Z.pos n); [ring|].
    rewrite <-Z.pow_mul_l. done.
  - by apply located_shr_1.
Qed.

Lemma located_shr a b mrs e n :
  located a b mrs →
  located a (2 ^ Z.max 0 n * b) (shr mrs e n).1 ∧ (shr mrs e n).2 = e + Z.max 0 n.
Proof.
  intros H. destruct n as [|n|n]; cbn [shr fst snd].
  - change (2 ^ Z.max 0 0) with 1. rewrite Z.mul_1_l. split; [done|lia].
  - rewrite Z.max_r by lia. split; [|done]. by apply located_iter_shr_1.
  - rewrite Z.max_l by lia. change (2 ^ 0) with 1. rewrite Z.mul_1_l. split; [done|lia].
Qed.

(** The location that the division gives to its quotient and remainder. *)
Lemma located_new_location q r b :
  0 < b → 0 ≤ q → 0 ≤ r < b →
  located (q * b + r) b (shr_record_of_loc q (new_location b r)).
Proof.
  intros Hb Hq Hr. unfold new_location, new_location_even, new_location_odd.
  destruct (Z.even b) eqn:He.
  - destruct (Z.eqb_spec r 0) as [->|?].
    + cbn. unfold located. cbn. repeat split; try lia; try done. 
    + destruct (Z.compare_spec (2 * r) b); cbn [shr_record_of_loc]; unfold located;
        cbn [shr_m shr_r shr_s].
      all: split; [lia|]; split; [lia|]; split; [lia|].
      all: split; [apply iff_bool_true|apply iff_bool_false]; cbv iota; lia.
  - assert (2 * r ≠ b).
    { intros <-. rewrite Z.even_mul in He. done. }
    destruct (Z.eqb_spec r 0) as [->|?].
    + cbn. unfold located. cbn. repeat split; try lia; try done. 
    + destruct (Z.compare_spec (2 * r + 1) b); cbn [shr_record_of_loc]; unfold located;
        cbn [shr_m shr_r shr_s].
      all: split; [lia|]; split; [lia|]; split; [lia|].
      all: split; [apply iff_bool_true|apply iff_bool_false]; cbv iota; lia.
Qed.

(** Rounding to nearest moves the mantissa by at most half a unit. *)
Lemma located_round a b mrs :
  located a b mrs →
  let M := round_nearest_even (shr_m mrs) (loc_of_shr_record mrs) in
  shr_m mrs ≤ M ≤ shr_m mrs + 1 ∧ 2 * Z.abs (M * b - a) ≤ b.
Proof.
  destruct mrs as [m r s]. unfold located. cbn [shr_m shr_r shr_s].
  intros (Hb & Hm & Ha & Hr%bool_iff_true & Hs%bool_iff_false).
  destruct r, s; cbn [loc_of_shr_record round_nearest_even]; try destruct (Z.even m); lia.
Qed.

Lemma Zdigits2_unique m k :
  0 < m → 2 ^ (k - 1) ≤ m < 2 ^ k → Zdigits2 m = k.
Proof. destruct m as [|p|p]; [lia| |lia]. intros _. apply digits2_pos_unique. Qed.

Lemma Zdigits2_bounds m :
  0 < m → 1 ≤ Zdigits2 m ∧ 2 ^ (Zdigits2 m - 1) ≤ m < 2 ^ Zdigits2 m.
Proof.
  destruct m as [|p|p]; [lia| |lia]. intros _. cbn [Zdigits2].
  split; [lia|apply digits2_pos_bounds].
Qed.

(** The rounding at the end of a division: the result is finite, its
    mantissa has 53 digits, and it is within half a unit of its last digit
    of [a / b * 2^e0]. *)
Lemma binary_round_aux_accurate s q e0 l a b :
  located a b (shr_record_of_loc q l) → 2 ^ 52 ≤ q < 2 ^ 54 → -1000 ≤ e0 ≤ 900 →
  ∃ M E, binary_round_aux JS.prec JS.emax s q e0 l = S754_finite s M E
    ∧ 2 ^ 52 ≤ Z.pos M ∧ e0 ≤ E
    ∧ 2 * Z.abs (Z.pos M * 2 ^ (E - e0) * b - a) ≤ 2 ^ (E - e0) * b.
Proof.
  intros Hloc Hq He. unfold binary_round_aux, shr_fexp.
  pose proof (Zdigits2_bounds q) as (Hd1 & Hd).
  { assert (0 < 2 ^ 52) by done. lia. }
  assert (Hdq : 53 ≤ Zdigits2 q ≤ 54).
  { split.
    - assert (52 < Zdigits2 q); [|lia]. apply (Z.pow_lt_mono_r_iff 2); lia.
    - assert (Zdigits2 q - 1 < 54); [|lia]. apply (Z.pow_lt_mono_r_iff 2); lia. }
  rewrite fexp_normal by lia.
  set (n := Zdigits2 q + e0 - 53 - e0).
  destruct (located_shr a b (shr_record_of_loc q l) e0 n Hloc) as [Hloc' He'].
  destruct (shr (shr_record_of_loc q l) e0 n) as [mrs' e']. cbn [fst snd] in Hloc', He'.
  rewrite Z.max_r in Hloc', He' by lia.
  destruct (located_round _ _ _ Hloc') as [HM Hnear].
  set (M := round_nearest_even (shr_m mrs') (loc_of_shr_record mrs')) in *.
  assert (Hm' : 2 ^ 52 ≤ shr_m mrs' < 2 ^ 53).
  { destruct Hloc as (Hb & _ & Ha & _), Hloc' as (_ & _ & Ha' & _).
    destruct l as [|[]]; cbn [shr_record_of_loc shr_m] in Ha.
    all: assert (n = 0 ∨ n = 1) as [Hn|Hn] by lia; rewrite Hn in Ha';
      [change (2 ^ 0) with 1 in Ha'|change (2 ^ 1) with 2 in Ha'].
    all: assert (Zdigits2 q = 53 + n) as Hdn by lia; rewrite Hdn, Hn in Hd;
      cbn in Hd; cbn; nia. }
  clearbody M. destruct (Z.lt_ge_cases M (2 ^ 53)) as [Hlt|Hge].
  - rewrite (Zdigits2_unique M 53) by (change (2 ^ (53 - 1)) with (2 ^ 52); lia).
    rewrite fexp_normal by lia. replace (53 + e' - 53 - e') with 0 by lia.
    cbn [shr shr_record_of_loc shr_m].
    destruct M as [|p|p]; [lia| |lia].
    unfold JS.emax, JS.prec. destruct (Z.leb_spec e' (1024 - 53)); [|lia].
    exists p, e'. split; [done|]. split; [lia|]. split; [lia|].
    replace (e' - e0) with n by lia.
    replace (Z.pos p * 2 ^ n * b) with (Z.pos p * (2 ^ n * b)) by ring. done.
  - assert (M = 2 ^ 53) as -> by lia.
    rewrite (Zdigits2_unique (2 ^ 53) 54) by done.
    rewrite fexp_normal by lia. replace (54 + e' - 53 - e') with 1 by lia.
    cbn [shr shr_record_of_loc SpecFloat.iter_pos]. change (2 ^ 53) with 9007199254740992.
    cbn [shr_1 shr_m].
    unfold JS.emax, JS.prec. destruct (Z.leb_spec (e' + 1) (1024 - 53)); [|lia].
    exists 4503599627370496%positive, (e' + 1). split; [done|]. split; [done|]. split; [lia|].
    replace (e' + 1 - e0) with (n + 1) by lia. rewrite Z.pow_add_r by lia.
    change (2 ^ 1) with 2. change (2 ^ 53) with 9007199254740992 in Hnear.
    assert (0 < 2 ^ n * b).
    { destruct Hloc' as [? _]. done. }
    lia.
Qed.

(** The binary64 quotient of two positive integers below [2^53] is a finite
    number [M * 2^E] with [2^52 <= M], within [2^E / 2] of the exact
    quotient [d / mp]; the inequality is written with both sides multiplied
    by [mp * 2^c]. *)
Lemma div_accurate d mp :
  0 < d < 2 ^ 53 → 0 < mp < 2 ^ 53 →
  ∃ M E c, JS.div d mp = S754_finite false M E
    ∧ 2 ^ 52 ≤ Z.pos M ∧ 0 ≤ c ∧ 0 ≤ E + c
    ∧ 2 * Z.abs (Z.pos M * 2 ^ (E + c) * mp - d * 2 ^ c) ≤ 2 ^ (E + c) * mp.
Proof.
  intros Hd Hmp. unfold JS.div.
  destruct (of_Z_normal d Hd) as (mx & ex & -> & Hmx & Hex & Hx).
  destruct (of_Z_normal mp Hmp) as (my & ey & -> & Hmy & Hey & Hy).
  unfold SFdiv, SFdiv_core_binary. cbn [Zdigits2 xorb].
  rewrite (digits2_pos_unique mx 53), (digits2_pos_unique my 53)
    by (change (2 ^ (53 - 1)) with (2 ^ 52); lia).
  rewrite fexp_normal by lia.
  rewrite Z.min_l by lia.
  replace (ex - ey - (53 + ex - (53 + ey) - 53)) with 53 by lia.
  rewrite Z.shiftl_mul_pow2 by lia.
  pose proof (Z_div_mod (Z.pos mx * 2 ^ 53) (Z.pos my)) as Hqr.
  destruct (Z.div_eucl (Z.pos mx * 2 ^ 53) (Z.pos my)) as [q r].
  destruct Hqr as [Hqr Hr]; [lia|].
  assert (Hq : 2 ^ 52 ≤ q < 2 ^ 54).
  { change (2 ^ 52) with 4503599627370496 in *.
    change (2 ^ 53) with 9007199254740992 in *.
    change (2 ^ 54) with 18014398509481984. nia. }
  assert (Hloc : located (Z.pos mx * 2 ^ 53) (Z.pos my)
                   (shr_record_of_loc q (new_location (Z.pos my) r))).
  { rewrite Hqr, (Z.mul_comm (Z.pos my)). apply located_new_location; lia. } 
  destruct (binary_round_aux_accurate false q (53 + ex - (53 + ey) - 53) _ _ _ Hloc Hq)
    as (M & E & -> & HM & HE & Hnear); [lia|].
  exists M, E, (53 - ex). split; [done|]. split; [done|]. split; [lia|].
  assert (HEc : E + (53 - ex) = (E - (53 + ex - (53 + ey) - 53)) + - ey) by lia.
  split; [lia|].
  rewrite HEc, Z.pow_add_r by lia.
  set (G := 2 ^ (E - (53 + ex - (53 + ey) - 53))) in *.
  replace (53 - ex) with (- ex + 53) by lia. rewrite Z.pow_add_r by lia.
  replace (Z.pos M * (G * 2 ^ (- ey)) * mp) with (Z.pos M * G * (mp * 2 ^ (- ey))) by ring.
  replace (G * 2 ^ (- ey) * mp) with (G * (mp * 2 ^ (- ey))) by ring.
  replace (d * (2 ^ (- ex) * 2 ^ 53)) with (d * 2 ^ (- ex) * 2 ^ 53) by ring.
  rewrite <-Hx, <-Hy. done.
Qed.

(** A hundredth nearest to a number within [2^-53] of [d / mp], relatively,
    is a hundredth nearest to [d / mp] when [200 * d < 2^52]. *)
Lemma hundredths_of_quotient Mz G C N d mp :
  0 < C → 0 < G → 0 < mp → 0 < d → 200 * d < 2 ^ 52 → 2 ^ 52 ≤ Mz →
  2 * Z.abs (Mz * G * mp - d * C) ≤ G * mp →
  (2 * N - 1) * C ≤ 200 * Mz * G < (2 * N + 1) * C →
  2 * Z.abs (100 * d - N * mp) ≤ mp.
Proof.
  change (2 ^ 52) with 4503599627370496.
  intros HC HG Hmp Hd Hsmall HM HA HB.
  set (W := G * mp) in *. assert (0 < W) by (unfold W; nia).
  replace (Mz * G * mp) with (Mz * W) in HA by (unfold W; ring).
  assert (HK : 100 * W < C).
  { assert (W * 4503599627370496 ≤ W * (2 * Mz - 1)) by (apply Z.mul_le_mono_nonneg_l; lia).
    assert (4503599627370496 * (100 * W) < 4503599627370496 * C); [|lia].
    assert (200 * d * C < 4503599627370496 * C) by (apply Z.mul_lt_mono_pos_r; lia).
    lia. }
  assert (HB1 : (2 * N - 1) * mp * C ≤ 200 * (Mz * W)).
  { replace (200 * (Mz * W)) with (200 * Mz * G * mp) by (unfold W; ring).
    replace ((2 * N - 1) * mp * C) with ((2 * N - 1) * C * mp) by ring.
    apply Z.mul_le_mono_nonneg_r; lia. }
  assert (HB2 : 200 * (Mz * W) < (2 * N + 1) * mp * C).
  { replace (200 * (Mz * W)) with (200 * Mz * G * mp) by (unfold W; ring).
    replace ((2 * N + 1) * mp * C) with ((2 * N + 1) * C * mp) by ring.
    apply Z.mul_lt_mono_pos_r; lia. }
  assert ((2 * N - 1) * mp * C < (200 * d + 1) * C) as H1%Z.mul_lt_mono_pos_r by lia; [|done].
  assert ((200 * d - 1) * C < (2 * N + 1) * mp * C) as H2%Z.mul_lt_mono_pos_r by lia; [|done].
  lia.
Qed.

(** ** Facts about the registry *)

Lemma findTeam_lookup n l r :
  LinkedList.findTeam n l = Some r →
  ∃ t, l !! r = Some t ∧ JS.toLowerCase (name t) = JS.toLowerCase n.
Proof.
  revert r. induction l as [|temp next IH]; intros r; simpl; [done|].
  destruct (String.eqb_spec (JS.toLowerCase (name temp)) (JS.toLowerCase n))
    as [Heq|Hne].
  - intros [= <-]. by exists temp.
  - destruct (LinkedList.findTeam n next) as [r'|]; simpl; [|done].
    intros [= <-]. simpl. by apply IH.
Qed.

Lemma findTeam_case n1 n2 l :
  JS.toLowerCase n1 = JS.toLowerCase n2 →
  LinkedList.findTeam n1 l = LinkedList.findTeam n2 l.
Proof.
  intros Heq. induction l as [|temp next IH]; simpl; [done|].
  by rewrite Heq, IH.
Qed.

(** ** The effect of [recordMatch] *)

(** Reading a node after a write: the write shows at the node written and
    nowhere else. *)
Lemma lookup_alter_node (f : TeamNode → TeamNode) (l : list TeamNode) i j :
  alter f i l !! j = (if decide (i = j) then f else id) <$> l !! j.
Proof.
  destruct (decide (i = j)) as [->|Hne].
  - apply list_lookup_alter_eq.
  - rewrite list_lookup_alter_ne by done. by destruct (l !! j).
Qed.

Lemma recordMatch_not_found a now T :
  LinkedList.findTeam (Args.team1 a) (teams T) = None
  ∨ LinkedList.findTeam (Args.team2 a) (teams T) = None →
  recordMatch a now T = (Throw (mkError "Team not found"), T).
Proof.
  destruct a as [n1 n2 s1 s2]. simpl.
  unfold recordMatch, mbind, method_bind, getTeamStats, reads, throw.
  intros [H|H]; rewrite H; [done|].
  by destruct (LinkedList.findTeam n1 (teams T)).
Qed.

Lemma recordMatch_distinct a now T r1 r2 :
  LinkedList.findTeam (Args.team1 a) (teams T) = Some r1 →
  LinkedList.findTeam (Args.team2 a) (teams T) = Some r2 →
  r1 ≠ r2 →
  recordMatch a now T =
    (Normal (recorded a now),
     mkIPLTournament
       (alter (settled (Args.team1Score a) (Args.team2Score a)) r1
          (alter (settled (Args.team2Score a) (Args.team1Score a)) r2
             (teams T)))
       (Stack.push (recorded a now) (matchHistory T))
       (upcomingMatches T)).
Proof.
  destruct a as [n1 n2 s1 s2]. simpl. intros H1 H2 Hne.
  unfold recordMatch, mbind, method_bind, getTeamStats, reads.
  rewrite H1, H2. unfold settled.
  destruct (Z.ltb_spec s2 s1), (Z.ltb_spec s1 s2); try lia.
  all: cbn; f_equal; f_equal.
  all: apply list_eq; intros j; rewrite !lookup_alter_node.
  all: destruct (decide (r1 = j)) as [->|], (decide (r2 = j)) as [->|]; try done.
  all: by destruct (teams T !! j) as [t|].
Qed.

Lemma recordMatch_same a now T r :
  LinkedList.findTeam (Args.team1 a) (teams T) = Some r →
  LinkedList.findTeam (Args.team2 a) (teams T) = Some r →
  recordMatch a now T =
    (Normal (recorded a now),
     mkIPLTournament
       (alter (settled_twice (Args.team1Score a) (Args.team2Score a)) r
          (teams T))
       (Stack.push (recorded a now) (matchHistory T))
       (upcomingMatches T)).
Proof.
  destruct a as [n1 n2 s1 s2]. simpl. intros H1 H2.
  unfold recordMatch, mbind, method_bind, getTeamStats, reads.
  rewrite H1, H2. unfold settled_twice.
  destruct (Z.ltb_spec s2 s1), (Z.ltb_spec s1 s2); try lia.
  all: cbn; f_equal; f_equal.
  all: apply list_eq; intros j; rewrite !lookup_alter_node.
  all: destruct (decide (r = j)) as [->|]; try done.
  all: by destruct (teams T !! j) as [t|].
Qed.

(** A call of [recordMatch] either throws and changes nothing, or settles
    the two nodes, or settles the one node twice. *)
Lemma recordMatch_cases a now T :
  recordMatch a now T = (Throw (mkError "Team not found"), T)
  ∨ (∃ r1 r2,
        LinkedList.findTeam (Args.team1 a) (teams T) = Some r1
        ∧ LinkedList.findTeam (Args.team2 a) (teams T) = Some r2
        ∧ r1 ≠ r2
        ∧ recordMatch a now T =
            (Normal (recorded a now),
             mkIPLTournament
               (alter (settled (Args.team1Score a) (Args.team2Score a)) r1
                  (alter (settled (Args.team2Score a) (Args.team1Score a)) r2
                     (teams T)))
               (Stack.push (recorded a now) (matchHistory T))
               (upcomingMatches T)))
  ∨ (∃ r,
        LinkedList.findTeam (Args.team1 a) (teams T) = Some r
        ∧ LinkedList.findTeam (Args.team2 a) (teams T) = Some r
        ∧ recordMatch a now T =
            (Normal (recorded a now),
             mkIPLTournament
               (alter (settled_twice (Args.team1Score a) (Args.team2Score a))
                  r (teams T))
               (Stack.push (recorded a now) (matchHistory T))
               (upcomingMatches T))).
Proof.
  destruct (LinkedList.findTeam (Args.team1 a) (teams T)) as [r1|] eqn:H1;
    [|left; apply recordMatch_not_found; by left].
  destruct (LinkedList.findTeam (Args.team2 a) (teams T)) as [r2|] eqn:H2;
    [|left; apply recordMatch_not_found; by right].
  right. destruct (decide (r1 = r2)) as [->|Hne].
  - right. exists r2. eauto using recordMatch_same.
  - left. exists r1, r2. eauto using recordMatch_distinct.
Qed.

Lemma settled_consistent mine theirs t :
  consistent t → consistent (settled mine theirs t).
Proof.
  unfold consistent, settled. simpl.
  destruct (theirs <? mine), (mine <? theirs); lia.
Qed.

Lemma settled_twice_consistent score1 score2 t :
  consistent t → consistent (settled_twice score1 score2 t).
Proof.
  unfold consistent, settled_twice. simpl.
  destruct ((score2 <? score1) || (score1 <? score2)); lia.
Qed.

Lemma settled_nrr mine theirs t :
  netRunRate (settled mine theirs t) = nrr (settled mine theirs t).
Proof. reflexivity. Qed.

Lemma settled_twice_nrr score1 score2 t :
  netRunRate (settled_twice score1 score2 t)
  = nrr (settled_twice score1 score2 t).
Proof. reflexivity. Qed.

Lemma length_slice0_5 {A} (l : list A) : (length (JS.slice0 5 l) ≤ 5)%nat.
Proof. unfold JS.slice0. rewrite length_take. simpl. lia. Qed.

Lemma slice0_take {A} (n : nat) (l : list A) :
  JS.slice0 (Z.of_nat n) l = take n l.
Proof.
  unfold JS.slice0.
  destruct (Z.ltb_spec (Z.of_nat n) 0); [lia|].
  destruct (Z.min_spec (Z.of_nat n) (Z.of_nat (length l))) as [[? ->]|[? ->]].
  - by rewrite Nat2Z.id.
  - rewrite Nat2Z.id. rewrite !take_ge; [done|lia|lia].
Qed.

(** ** The state after a call *)

Lemma new_TeamNode_consistent teamData :
  zeroed teamData = true → consistent (new_TeamNode teamData).
Proof.
  unfold zeroed, consistent. simpl.
  rewrite !andb_true_iff, !Z.eqb_eq. lia.
Qed.

Lemma after_consistent c T :
  registers_zeroed c = true →
  Forall consistent (teams T) → Forall consistent (teams (after c T)).
Proof.
  intros Hc HT. destruct c as [teamData|a now|matchData|]; simpl in *.
  - apply Forall_app. split; [done|].
    constructor; [|constructor]. by apply new_TeamNode_consistent.
  - destruct (recordMatch_cases a now T)
      as [->|[(r1 & r2 & _ & _ & _ & ->)|(r & _ & _ & ->)]]; simpl.
    + done.
    + do 2 (apply Forall_alter; [|intros; by apply settled_consistent]).
      done.
    + apply Forall_alter; [done|]. intros. by apply settled_twice_consistent.
  - done.
  - constructor.
Qed.

Lemma states_consistent cs T :
  Forall (λ c, registers_zeroed c = true) cs →
  Forall consistent (teams T) →
  Forall (λ T', Forall consistent (teams T')) (states cs T).
Proof.
  intros Hcs. revert T.
  induction Hcs as [|c cs Hc _ IH]; intros T HT; simpl; constructor.
  - by apply after_consistent.
  - apply IH. by apply after_consistent.
Qed.

(** A call of [recordMatch] that returns has pushed the match it returns
    on the history, so the history lists the matches in the order they were
    recorded. *)
Lemma recordMatch_pushes a now T m T' :
  recordMatch a now T = (Normal m, T') →
  m = recorded a now ∧ matchHistory T' = matchHistory T ++ [m].
Proof.
  intros Hrun.
  destruct (recordMatch_cases a now T)
    as [Hc|[(r1 & r2 & _ & _ & _ & Hc)|(r & _ & _ & Hc)]];
    rewrite Hc in Hrun; [done| |]; by injection Hrun as <- <-.
Qed.

(** With a negative limit, [slice] drops that many matches from the old end
    of the history instead. *)
Lemma getMatchHistory_negative_limit T k :
  k < 0 →
  getMatchHistory (Some k) T
  = (Normal (reverse (drop (Z.to_nat (- k)) (matchHistory T))), T).
Proof.
  intros Hk. unfold getMatchHistory, reads, Stack.getAll, JS.slice0. simpl.
  destruct (Z.ltb_spec k 0); [|lia]. do 2 f_equal.
  rewrite length_reverse, take_reverse. f_equal.
  destruct (decide (- k ≤ Z.of_nat (length (matchHistory T)))).
  - f_equal. lia.
  - rewrite !drop_ge; [done|lia|lia].
Qed.

(** ** The properties of the specification *)

(** Claim C1.  Start from the empty tournament and make any sequence of
    calls that change it (registrations, recorded matches, announced
    matches, resets) in which every registration leaves the four match
    counters at zero.  After every call of the sequence, every team has
    [matchesPlayed = wins + losses + noResults]. *)
Theorem matchesPlayed_adds_up_after_every_call (cs : list call) :
  Forall (λ c, registers_zeroed c = true) cs →
  Forall (λ T, Forall consistent (teams T)) (states cs new_IPLTournament).
Proof. intros Hcs. apply states_consistent; [done|constructor]. Qed.

(** Claim C2.  When either name is not in the registry, [recordMatch]
    throws the error [Team not found] and the tournament it leaves (teams,
    history and upcoming matches) is the one it was called on. *)
Theorem recordMatch_unknown_team_changes_nothing (a : Args.t) (now : Z)
    (T : IPLTournament) :
  LinkedList.findTeam (Args.team1 a) (teams T) = None
  ∨ LinkedList.findTeam (Args.team2 a) (teams T) = None →
  recordMatch a now T = (Throw (mkError "Team not found"), T).
Proof. apply recordMatch_not_found. Qed.

(** Claim C3.  [getStandings] returns, without changing the tournament, a
    permutation of [getAllTeams] in which every team comes before the teams
    with fewer points and, among those with the same points, before those
    with a lower net run rate; a second call right after the first returns
    the same sequence. *)
Theorem getStandings_sorted_permutation_and_repeatable (T : IPLTournament) :
  ∃ s,
    getStandings T = (Normal s, T)
    ∧ s ≡ₚ LinkedList.getAllTeams (teams T)
    ∧ StronglySorted standings_order s
    ∧ (first ← getStandings; second ← getStandings; mret (first, second)) T
      = (Normal (s, s), T).
Proof.
  exists (LinkedList.getStandings (teams T)).
  split; [done|]. split; [apply getStandings_Permutation|].
  split; [apply getStandings_sorted|done].
Qed.

(** After a call of [recordMatch] that returns, the net run rate of each
    of the two teams has been computed from the counters the team has
    after the call. *)
Lemma recordMatch_recomputes_netRunRate (a : Args.t) (now : Z)
    (T T' : IPLTournament) (m : Match) (r : nat) :
  recordMatch a now T = (Normal m, T') →
  LinkedList.findTeam (Args.team1 a) (teams T) = Some r
  ∨ LinkedList.findTeam (Args.team2 a) (teams T) = Some r →
  ∃ t,
    teams T' !! r = Some t
    ∧ netRunRate t =
        if 0 <? matchesPlayed t
        then JS.toFixed2
               (JS.div (runsScored t - runsConceded t) (matchesPlayed t))
        else 0.
Proof.
  intros Hrun Hr.
  assert (∃ t0, teams T !! r = Some t0) as [t0 Ht0].
  { destruct Hr as [Hr|Hr]; apply findTeam_lookup in Hr as (t0 & ? & _); eauto. }
  destruct (recordMatch_cases a now T)
    as [Hc|[(r1 & r2 & H1 & H2 & Hne & Hc)|(r' & H1 & H2 & Hc)]];
    rewrite Hc in Hrun; [done| |]; injection Hrun as <- <-; simpl.
  - assert (r = r1 ∨ r = r2) as [->| ->] by (destruct Hr; [left|right]; congruence).
    + rewrite list_lookup_alter_eq, list_lookup_alter_ne, Ht0 by done.
      eexists. split; [done|]. apply settled_nrr.
    + rewrite list_lookup_alter_ne, list_lookup_alter_eq, Ht0 by done.
      eexists. split; [done|]. apply settled_nrr.
  - assert (r = r') as -> by (destruct Hr; congruence).
    rewrite list_lookup_alter_eq, Ht0.
    eexists. split; [done|]. apply settled_twice_nrr.
Qed.

(** [toFixed(2)] gives the hundredth nearest to the number it is applied
    to. *)
Lemma toFixed2_nearest s m e :
  nearest_hundredths s m e (JS.toFixed2 (S754_finite s m e)).
Proof.
  unfold nearest_hundredths, JS.toFixed2, JS.nearest_hundredth.
  destruct (Z.leb_spec 0 e) as [He|He].
  - exists (100 * Z.pos m * 2 ^ e), 0. split; [done|].
    assert (0 < 2 ^ e) by (apply Z.pow_pos_nonneg; lia).
    split; [nia|]. split; [lia|].
    rewrite Z.add_0_r. simpl (2 ^ 0). lia.
  - exists ((200 * Z.pos m + 2 ^ (- e)) / 2 ^ (- e + 1)), (- e).
    split; [done|].
    assert (0 < 2 ^ (- e)) as Hpow by (apply Z.pow_pos_nonneg; lia).
    assert (2 ^ (- e + 1) = 2 * 2 ^ (- e)) as Hsucc
      by (rewrite Z.pow_add_r by lia; simpl (2 ^ 1); lia).
    split; [apply Z.div_pos; lia|]. split; [lia|].
    replace (e + - e) with 0 by lia. simpl (2 ^ 0).
    pose proof (Z.div_mod (200 * Z.pos m + 2 ^ (- e)) (2 ^ (- e + 1))) as Hdm.
    pose proof (Z.mod_pos_bound (200 * Z.pos m + 2 ^ (- e)) (2 ^ (- e + 1)))
      as Hmod.
    rewrite Hsucc in *.
    nia.
Qed.

(** The net run rate that the code computes is within half a hundredth of
    the exact quotient [d / mp], for a positive [mp] below [2^53] and a
    difference [d] with [200 * |d| < 2^52]. *)
Lemma toFixed2_div_near d mp :
  0 < mp < 2 ^ 53 → 200 * Z.abs d < 2 ^ 52 →
  2 * Z.abs (100 * d - JS.toFixed2 (JS.div d mp) * mp) ≤ mp.
Proof.
  intros Hmp Hd.
  assert (Hpos : ∀ d, 0 < d → 200 * d < 2 ^ 52 →
            2 * Z.abs (100 * d - JS.toFixed2 (JS.div d mp) * mp) ≤ mp).
  { clear d Hd. intros d Hd Hsmall.
    destruct (div_accurate d mp) as (M & E & c & -> & HM & Hc & HEc & HA); [|done|].
    { change (2 ^ 52) with 4503599627370496 in Hsmall.
      change (2 ^ 53) with 9007199254740992. lia. }
    destruct (toFixed2_nearest false M E) as (N & k & -> & HN & -> & HB).
    assert (Hk : 0 ≤ c - Z.max 0 (- E)) by lia.
    assert (HP : 0 < 2 ^ (c - Z.max 0 (- E))) by (apply Z.pow_pos_nonneg; lia).
    apply (hundredths_of_quotient (Z.pos M) (2 ^ (E + c)) (2 ^ c)); try done.
    - apply Z.pow_pos_nonneg; lia.
    - apply Z.pow_pos_nonneg; lia.
    - lia.
    - assert (HC : 2 ^ c = 2 ^ Z.max 0 (- E) * 2 ^ (c - Z.max 0 (- E))).
      { rewrite <-Z.pow_add_r by lia. f_equal. lia. }
      assert (HG : 2 ^ (E + c) = 2 ^ (E + Z.max 0 (- E)) * 2 ^ (c - Z.max 0 (- E))).
      { rewrite <-Z.pow_add_r by lia. f_equal. lia. }
      rewrite HC, HG. set (P := 2 ^ (c - Z.max 0 (- E))) in *.
      split.
      + replace ((2 * N - 1) * (2 ^ Z.max 0 (- E) * P))
          with ((2 * N - 1) * 2 ^ Z.max 0 (- E) * P) by ring.
        replace (200 * Z.pos M * (2 ^ (E + Z.max 0 (- E)) * P))
          with (200 * Z.pos M * 2 ^ (E + Z.max 0 (- E)) * P) by ring.
        apply Z.mul_le_mono_nonneg_r; lia.
      + replace ((2 * N + 1) * (2 ^ Z.max 0 (- E) * P))
          with ((2 * N + 1) * 2 ^ Z.max 0 (- E) * P) by ring.
        replace (200 * Z.pos M * (2 ^ (E + Z.max 0 (- E)) * P))
          with (200 * Z.pos M * 2 ^ (E + Z.max 0 (- E)) * P) by ring.
        apply Z.mul_lt_mono_pos_r; lia. }
  destruct (Z.lt_trichotomy d 0) as [Hneg|[->|Hp]].
  - replace d with (- - d) by lia. rewrite toFixed2_div_opp.
    specialize (Hpos (- d)). lia.
  - unfold JS.div. change (JS.of_Z 0) with (S754_zero false).
    destruct (of_Z_normal mp) as (my & ey & -> & _).
    { done. }
    cbn. lia.
  - apply Hpos; lia.
Qed.

(** Claim C4, as the code has it.  After a call of [recordMatch] that
    returns, for the counters each of the two teams has after the call:
    the net run rate is [0] when [matchesPlayed] is not positive.  When
    [matchesPlayed] is positive and below [2^53] and the run difference
    [d = runsScored - runsConceded] has [200 * |d| < 2^52], the net run
    rate is a number of hundredths within half a hundredth of the exact
    quotient [d / matchesPlayed].  Which of two hundredths that are as near
    is taken is decided by the binary64 quotient: when [matchesPlayed] is
    positive the net run rate is [0] if that quotient is a zero, and if it
    is the finite number of sign [s] and magnitude [mx * 2^e] it is the
    number of hundredths nearest to that number, the one away from zero
    when two are as near to it. *)
Theorem recordMatch_netRunRate_nearest_hundredth (a : Args.t) (now : Z)
    (T T' : IPLTournament) (m : Match) (r : nat) :
  recordMatch a now T = (Normal m, T') →
  LinkedList.findTeam (Args.team1 a) (teams T) = Some r
  ∨ LinkedList.findTeam (Args.team2 a) (teams T) = Some r →
  ∃ t,
    teams T' !! r = Some t
    ∧ (matchesPlayed t ≤ 0 → netRunRate t = 0)
    ∧ (0 < matchesPlayed t < 2 ^ 53 →
       200 * Z.abs (runsScored t - runsConceded t) < 2 ^ 52 →
       2 * Z.abs (100 * (runsScored t - runsConceded t)
                  - netRunRate t * matchesPlayed t)
       ≤ matchesPlayed t)
    ∧ (0 < matchesPlayed t →
       match JS.div (runsScored t - runsConceded t) (matchesPlayed t) with
       | S754_zero _ => netRunRate t = 0
       | S754_finite s mx e => nearest_hundredths s mx e (netRunRate t)
       | _ => True
       end).
Proof.
  intros Hrun Hr.
  destruct (recordMatch_recomputes_netRunRate a now T T' m r Hrun Hr)
    as (t & Ht & Hnrr).
  exists t. split; [done|].
  destruct (Z.ltb_spec 0 (matchesPlayed t)) as [Hmp|Hmp].
  - split; [lia|]. split.
    + intros Hmp' Hd. rewrite Hnrr. by apply toFixed2_div_near.
    + intros _.
      destruct (JS.div (runsScored t - runsConceded t) (matchesPlayed t))
        as [s|s| |s mx e]; try done.
      rewrite Hnrr. apply toFixed2_nearest.
  - split; [done|]. split; lia.
Qed.

(** Claim C5.  When [recordMatch] is called on two different nodes of the
    registry with equal scores, it returns a match whose [winner] is the
    string [Tie]; each of the two teams has one more [noResults] and one
    more point, and its [form] is ["T"] followed by its previous form, cut
    to five entries. *)
Theorem recordMatch_tie (a : Args.t) (now : Z) (T : IPLTournament)
    (r1 r2 : nat) :
  LinkedList.findTeam (Args.team1 a) (teams T) = Some r1 →
  LinkedList.findTeam (Args.team2 a) (teams T) = Some r2 →
  r1 ≠ r2 →
  Args.team1Score a = Args.team2Score a →
  ∃ m T' t1 t2 t1' t2',
    recordMatch a now T = (Normal m, T')
    ∧ winner m = "Tie"
    ∧ result m = ResultTie
    ∧ teams T !! r1 = Some t1 ∧ teams T' !! r1 = Some t1'
    ∧ teams T !! r2 = Some t2 ∧ teams T' !! r2 = Some t2'
    ∧ noResults t1' = noResults t1 + 1 ∧ points t1' = points t1 + 1
    ∧ form t1' = take 5 ("T" :: form t1)
    ∧ noResults t2' = noResults t2 + 1 ∧ points t2' = points t2 + 1
    ∧ form t2' = take 5 ("T" :: form t2).
Proof.
  intros H1 H2 Hne Heq.
  destruct (findTeam_lookup _ _ _ H1) as (t1 & Ht1 & _).
  destruct (findTeam_lookup _ _ _ H2) as (t2 & Ht2 & _).
  exists (recorded a now). eexists. exists t1, t2.
  exists (settled (Args.team1Score a) (Args.team2Score a) t1).
  exists (settled (Args.team2Score a) (Args.team1Score a) t2).
  split; [by apply recordMatch_distinct|]. simpl.
  rewrite list_lookup_alter_eq, list_lookup_alter_ne, Ht1 by done.
  rewrite list_lookup_alter_ne, list_lookup_alter_eq, Ht2 by done.
  destruct a as [n1 n2 s1 s2]. simpl in *. subst s2.
  unfold settled. rewrite Z.ltb_irrefl. simpl.
  by rewrite !(slice0_take 5).
Qed.


(** Claim C8.  For a history of [n] matches and a limit [k] that is not
    negative, [getMatchHistory] returns the last [min k n] matches pushed,
    the most recent first; without a limit it returns what it returns for
    the limit [50]. *)
Theorem getMatchHistory_most_recent_first (T : IPLTournament) (k : Z) :
  0 ≤ k →
  let n := length (matchHistory T) in
  let c := Z.to_nat (Z.min k (Z.of_nat n)) in
  getMatchHistory (Some k) T
    = (Normal (reverse (drop (n - c) (matchHistory T))), T)
  ∧ length (reverse (drop (n - c) (matchHistory T))) = c
  ∧ getMatchHistory None T = getMatchHistory (Some 50) T.
Proof.
  intros Hk n c. split; [|split; [|done]].
  - unfold getMatchHistory, reads, Stack.getAll. simpl. f_equal. f_equal.
    replace k with (Z.of_nat (Z.to_nat k)) at 1 by lia.
    rewrite slice0_take, take_reverse. fold n.
    destruct (decide (Z.to_nat k ≤ n)%nat).
    + do 2 f_equal. lia.
    + replace (n - Z.to_nat k)%nat with 0%nat by lia.
      replace (n - c)%nat with 0%nat by lia. done.
  - rewrite length_reverse, length_drop. fold n. lia.
Qed.

(** Claim C9.  When the two names of a call of [recordMatch] are equal up
    to case and the first is found in the registry, the second is found at
    the same node; the call returns, and that node has [matchesPlayed]
    increased by [2] and both scores added to its [runsScored] and to its
    [runsConceded]. *)
Theorem recordMatch_same_team_counts_twice (a : Args.t) (now : Z)
    (T : IPLTournament) (r : nat) :
  JS.toLowerCase (Args.team1 a) = JS.toLowerCase (Args.team2 a) →
  LinkedList.findTeam (Args.team1 a) (teams T) = Some r →
  LinkedList.findTeam (Args.team2 a) (teams T) = Some r
  ∧ ∃ m T' t t',
      recordMatch a now T = (Normal m, T')
      ∧ teams T !! r = Some t ∧ teams T' !! r = Some t'
      ∧ matchesPlayed t' = matchesPlayed t + 2
      ∧ runsScored t' = runsScored t + Args.team1Score a + Args.team2Score a
      ∧ runsConceded t'
        = runsConceded t + Args.team1Score a + Args.team2Score a.
Proof.
  intros Hcase H1.
  assert (LinkedList.findTeam (Args.team2 a) (teams T) = Some r) as H2
    by (by rewrite <- (findTeam_case _ _ _ Hcase)).
  split; [done|].
  destruct (findTeam_lookup _ _ _ H1) as (t & Ht & _).
  exists (recorded a now). eexists. exists t.
  exists (settled_twice (Args.team1Score a) (Args.team2Score a) t).
  split; [by apply recordMatch_same|]. simpl.
  rewrite list_lookup_alter_eq, Ht. simpl.
  split; [done|]. split; [done|]. repeat split; lia.
Qed.

(** Claim C10.  [addTeam] stores the [form] it is given as it is, whatever
    its length; there is a registration after which the new team has a form
    of more than five entries; and after a call of [recordMatch] that
    returns, each of its two teams has a form of at most five entries. *)
Theorem addTeam_keeps_form_recordMatch_bounds_it :
  (∀ teamData T,
      ∃ r T' t,
        addTeam teamData T = (Normal r, T')
        ∧ teams T' !! r = Some t
        ∧ form t = JS.or_empty (TeamData.form teamData))
  ∧ (∃ teamData T r T' t,
        addTeam teamData T = (Normal r, T')
        ∧ teams T' !! r = Some t
        ∧ (5 < length (form t))%nat)
  ∧ (∀ a now T m T' r,
        recordMatch a now T = (Normal m, T') →
        LinkedList.findTeam (Args.team1 a) (teams T) = Some r
        ∨ LinkedList.findTeam (Args.team2 a) (teams T) = Some r →
        ∃ t, teams T' !! r = Some t ∧ (length (form t) ≤ 5)%nat).
Proof.
  split; [|split].
  - intros teamData T.
    exists (length (teams T)). eexists. exists (new_TeamNode teamData).
    split; [done|]. simpl. split; [|done].
    by rewrite lookup_app_r, Nat.sub_diag.
  - exists (TeamData.mk "Alpha" None None None None None None None None None
              None None None (Some ["W"; "W"; "L"; "W"; "T"; "L"])).
    exists new_IPLTournament. eexists. eexists. eexists.
    split; [done|]. simpl. split; [done|]. simpl. lia.
  - intros a now T m T' r Hrun Hr.
    assert (∃ t0, teams T !! r = Some t0) as [t0 Ht0].
    { destruct Hr as [Hr|Hr]; apply findTeam_lookup in Hr as (t0 & ? & _);
        eauto. }
    destruct (recordMatch_cases a now T)
      as [Hc|[(r1 & r2 & H1 & H2 & Hne & Hc)|(r' & H1 & H2 & Hc)]];
      rewrite Hc in Hrun; [done| |]; injection Hrun as <- <-; simpl.
    + assert (r = r1 ∨ r = r2) as [->| ->]
        by (destruct Hr; [left|right]; congruence).
      * rewrite list_lookup_alter_eq, list_lookup_alter_ne, Ht0 by done.
        eexists. split; [done|]. apply length_slice0_5.
      * rewrite list_lookup_alter_ne, list_lookup_alter_eq, Ht0 by done.
        eexists. split; [done|]. apply length_slice0_5.
    + assert (r = r') as -> by (destruct Hr; congruence).
      rewrite list_lookup_alter_eq, Ht0.
      eexists. split; [done|]. apply length_slice0_5.
Qed.

(** ** The route *)

Lemma score_of_NaN x : JS.parseInt x = None → score_of x = 0.
Proof. unfold score_of. by intros ->. Qed.

(** Claim C7, as the code has it.  The handler answers with status 400,
    calls [recordMatch] not at all and leaves the tournament as it is when
    a team name is missing or when both scores read as zero, a score that
    is absent or not a number reading as zero.  In every other case it
    calls [recordMatch] once, with the names and the two scores as read; so
    a request with one absent or non-numeric score reaches [recordMatch]
    when the other score is a number other than zero. *)
Theorem post_matches_rejects_only_two_zero_scores (body : Body.t) (now : Z)
    (T : IPLTournament) :
  let score1 := score_of (Body.team1Score body) in
  let score2 := score_of (Body.team2Score body) in
  let rejected :=
    missing (Body.team1 body) || missing (Body.team2 body)
    || ((score1 =? 0) && (score2 =? 0)) in
  (rejected = true →
     status (response (post_matches body now T)) = 400
     ∧ core_calls (post_matches body now T) = []
     ∧ tournament (post_matches body now T) = T)
  ∧ (rejected = false →
       core_calls (post_matches body now T)
       = [Args.mk (default "" (Body.team1 body))
            (default "" (Body.team2 body)) score1 score2])
  ∧ (JS.parseInt (Body.team1Score body) = None → score1 = 0)
  ∧ (JS.parseInt (Body.team2Score body) = None → score2 = 0).
Proof.
  destruct body as [n1 n2 x1 x2].
  cbv zeta. cbn [Body.team1 Body.team2 Body.team1Score Body.team2Score].
  split; [|split; [|split; apply score_of_NaN]].
  - unfold post_matches; cbv beta iota zeta.
    destruct (missing n1 || missing n2); [done|].
    cbn [orb]. by intros ->.
  - unfold post_matches; cbv beta iota zeta.
    destruct (missing n1 || missing n2); [done|].
    cbn [orb]. intros ->.
    by destruct (recordMatch _ _ _) as [[?|?] ?].
Qed.

(** ** Instances *)

Lemma matchesPlayed_adds_up_after_every_call_witness :
  Forall (λ c, registers_zeroed c = true) session
  ∧ Forall (λ T, Forall consistent (teams T)) (states session new_IPLTournament).
Proof.
  assert (Forall (λ c, registers_zeroed c = true) session) as H
    by (repeat constructor).
  split; [exact H|].
  exact (matchesPlayed_adds_up_after_every_call session H).
Defined.

Lemma recordMatch_unknown_team_changes_nothing_witness :
  LinkedList.findTeam "Ghost" (teams two_teams) = None
  ∧ recordMatch (Args.mk "Ghost" "Alpha" 100 90) 0 two_teams
    = (Throw (mkError "Team not found"), two_teams).
Proof.
  split; [reflexivity|].
  apply (recordMatch_unknown_team_changes_nothing
           (Args.mk "Ghost" "Alpha" 100 90) 0 two_teams).
  left. reflexivity.
Defined.

Lemma recordMatch_netRunRate_nearest_hundredth_witness :
  ∃ t,
    teams (recordMatch (Args.mk "Alpha" "Beta" 180 150) 0 two_teams).2 !! 1%nat
    = Some t
    ∧ (matchesPlayed t ≤ 0 → netRunRate t = 0)
    ∧ (0 < matchesPlayed t < 2 ^ 53 →
       200 * Z.abs (runsScored t - runsConceded t) < 2 ^ 52 →
       2 * Z.abs (100 * (runsScored t - runsConceded t)
                  - netRunRate t * matchesPlayed t)
       ≤ matchesPlayed t)
    ∧ (0 < matchesPlayed t →
       match JS.div (runsScored t - runsConceded t) (matchesPlayed t) with
       | S754_zero _ => netRunRate t = 0
       | S754_finite s mx e => nearest_hundredths s mx e (netRunRate t)
       | _ => True
       end).
Proof.
  eapply (recordMatch_netRunRate_nearest_hundredth
            (Args.mk "Alpha" "Beta" 180 150) 0 two_teams).
  - vm_compute. reflexivity.
  - right. reflexivity.
Defined.

(** Claim C4, as stated, fails after the forty matches: Alpha has a run
    difference of 43 over 40 matches, the exact quotient 1.075 rounds to
    1.08, and the net run rate is 1.07, because the binary64 quotient lies
    below 1.075. *)
Lemma netRunRate_of_43_over_40 :
  ∃ t,
    teams after_forty_matches !! 0%nat = Some t
    ∧ matchesPlayed t = 40
    ∧ runsScored t - runsConceded t = 43
    ∧ round_half_away 43 40 = 108
    ∧ netRunRate t = 107.
Proof.
  exists (mkTeamNode "Alpha" "A" "" "" "#000000" 41 107 40 1 0 39 82 39
            ["T"; "T"; "T"; "T"; "T"]).
  vm_compute. repeat split.
Qed.

Lemma recordMatch_tie_witness :
  ∃ m T' t1',
    recordMatch (Args.mk "Alpha" "Beta" 150 150) 0 two_teams = (Normal m, T')
    ∧ winner m = "Tie"
    ∧ teams T' !! 0%nat = Some t1'
    ∧ noResults t1' = 1 ∧ points t1' = 1 ∧ form t1' = ["T"].
Proof.
  destruct (recordMatch_tie (Args.mk "Alpha" "Beta" 150 150) 0 two_teams 0 1)
    as (m & T' & t1 & t2 & t1' & t2' & Hrun & Hw & _ & Ht1 & Ht1' & _ & _
        & Hn & Hp & Hf & _).
  - reflexivity.
  - reflexivity.
  - discriminate.
  - reflexivity.
  - exists m, T', t1'.
    vm_compute in Ht1. injection Ht1 as <-.
    cbn in Hn, Hp, Hf.
    repeat split; assumption.
Defined.

Lemma getMatchHistory_most_recent_first_witness :
  0 ≤ 2
  ∧ ∃ T m4 m5,
      length (matchHistory T) = 5%nat
      ∧ drop 3 (matchHistory T) = [m4; m5]
      ∧ getMatchHistory (Some 2) T = (Normal [m5; m4], T)
      ∧ getMatchHistory None T = getMatchHistory (Some 50) T.
Proof.
  split; [lia|].
  pose (T := mkIPLTournament []
               (map (λ d, recorded (Args.mk "Alpha" "Beta" 180 150) d)
                  [1; 2; 3; 4; 5]) []).
  exists T, (recorded (Args.mk "Alpha" "Beta" 180 150) 4),
    (recorded (Args.mk "Alpha" "Beta" 180 150) 5).
  destruct (getMatchHistory_most_recent_first T 2) as (Hget & _ & Hdefault);
    [lia|].
  split; [reflexivity|]. split; [reflexivity|]. split; [exact Hget|].
  exact Hdefault.
Defined.

Lemma recordMatch_same_team_counts_twice_witness :
  JS.toLowerCase "Alpha" = JS.toLowerCase "ALPHA"
  ∧ ∃ m T' t',
      recordMatch (Args.mk "Alpha" "ALPHA" 180 150) 0 two_teams = (Normal m, T')
      ∧ teams T' !! 0%nat = Some t'
      ∧ matchesPlayed t' = 2 ∧ runsScored t' = 330 ∧ runsConceded t' = 330.
Proof.
  split; [reflexivity|].
  destruct (recordMatch_same_team_counts_twice
              (Args.mk "Alpha" "ALPHA" 180 150) 0 two_teams 0)
    as (_ & m & T' & t & t' & Hrun & Ht & Ht' & Hmp & Hrs & Hrc).
  - reflexivity.
  - reflexivity.
  - exists m, T', t'.
    vm_compute in Ht. injection Ht as <-.
    cbn in Hmp, Hrs, Hrc.
    repeat split; assumption.
Defined.

Lemma addTeam_keeps_form_recordMatch_bounds_it_witness :
  (∃ t, teams three_teams !! 2%nat = Some t ∧ length (form t) = 6%nat)
  ∧ (∃ t, teams (recordMatch (Args.mk "Gamma" "Alpha" 120 100) 0 three_teams).2
            !! 2%nat = Some t
          ∧ (length (form t) ≤ 5)%nat).
Proof.
  destruct addTeam_keeps_form_recordMatch_bounds_it as (Hkeep & _ & Hbound).
  split.
  - destruct (Hkeep long_form two_teams) as (r & T' & t & Hadd & Ht & Hform).
    injection Hadd as <- <-.
    exists t. split; [exact Ht|]. by rewrite Hform.
  - eapply (Hbound (Args.mk "Gamma" "Alpha" 120 100) 0 three_teams).
    + vm_compute. reflexivity.
    + left. reflexivity.
Defined.

Lemma post_matches_rejects_only_two_zero_scores_witness :
  (status (response (post_matches body_without_scores 0 server_tournament))
   = 400
   ∧ core_calls (post_matches body_without_scores 0 server_tournament) = []
   ∧ tournament (post_matches body_without_scores 0 server_tournament)
     = server_tournament)
  ∧ core_calls (post_matches body_without_score1 0 server_tournament)
    = [Args.mk "Mumbai Indians" "Chennai Super Kings" 0 150].
Proof.
  split.
  - apply (post_matches_rejects_only_two_zero_scores body_without_scores 0
             server_tournament).
    reflexivity.
  - apply (post_matches_rejects_only_two_zero_scores body_without_score1 0
             server_tournament).
    reflexivity.
Defined.

(** Claim C7, as stated, fails on the request whose first score is absent
    and whose second score is 150: the absent score is not a number, yet the
    handler calls [recordMatch] with the scores 0 and 150 and answers with
    status 200. *)
Lemma post_matches_absent_score_reaches_recordMatch :
  JS.parseInt (Body.team1Score body_without_score1) = None
  ∧ core_calls (post_matches body_without_score1 0 server_tournament)
    = [Args.mk "Mumbai Indians" "Chennai Super Kings" 0 150]
  ∧ status (response (post_matches body_without_score1 0 server_tournament))
    = 200
  ∧ response_message
      (response (post_matches body_without_score1 0 server_tournament))
    = "Match recorded - Chennai Super Kings won!".
Proof. vm_compute. repeat split. Qed.

(** ** Examples of the specification *)

(** Alpha 180 against Beta 150: Alpha has a win, two points, form [W] and a
    net run rate of 30.00; Beta has a loss, no points, form [L] and -30.00. *)
Example alpha_beats_beta :
  teams (recordMatch (Args.mk "Alpha" "Beta" 180 150) 0 two_teams).2
  = [ mkTeamNode "Alpha" "A" "" "" "#000000" 2 3000 1 1 0 0 180 150 ["W"];
      mkTeamNode "Beta" "B" "" "" "#000000" 0 (-3000) 1 0 1 0 150 180 ["L"] ].
Proof. reflexivity. Qed.

(** [toFixed(2)] rounds the binary quotient: [201 / 200] lies below 1.005 and
    gives 1.00, [1 / 200] lies above 0.005 and gives 0.01, [1 / 8] is 0.125
    and gives 0.13, [-3 / 8] gives -0.38. *)
Example toFixed2_of_quotients :
  JS.toFixed2 (JS.div 201 200) = 100
  ∧ JS.toFixed2 (JS.div 1 200) = 1
  ∧ JS.toFixed2 (JS.div 1 8) = 13
  ∧ JS.toFixed2 (JS.div (-3) 8) = -38
  ∧ JS.toFixed2 (JS.div 1 3) = 33.
Proof. vm_compute. repeat split. Qed.

(** After five matches, [getMatchHistory(2)] returns the last two, the most
    recent first. *)
Example recent_two_of_five :
  map date
    (JS.slice0 2
       (Stack.getAll
          (foldl (λ items d, Stack.push (recorded (Args.mk "A" "B" 1 0) d) items)
             Stack.new [1; 2; 3; 4; 5])))
  = [5; 4].
Proof. reflexivity. Qed.

(** After [resetTournament] there are no standings and no teams. *)
Example reset_empties (T : IPLTournament) :
  (resetTournament;; getStandings) T = (Normal [], new_IPLTournament)
  ∧ (resetTournament;; getTournamentStats) T
    = (Normal (0%nat, 0%nat, []), new_IPLTournament).
Proof. split; reflexivity. Qed.

(** ** Further properties: the registry *)

Lemma findTeam_None n l :
  LinkedList.findTeam n l = None →
  Forall (λ t, JS.toLowerCase (name t) ≠ JS.toLowerCase n) l.
Proof.
  induction l as [|temp next IH]; simpl; [constructor|].
  destruct (String.eqb_spec (JS.toLowerCase (name temp)) (JS.toLowerCase n));
    [done|].
  destruct (LinkedList.findTeam n next); [done|].
  intros _. constructor; [done|]. by apply IH.
Qed.

Lemma findTeam_first n l r :
  LinkedList.findTeam n l = Some r →
  ∀ i t, (i < r)%nat → l !! i = Some t →
    JS.toLowerCase (name t) ≠ JS.toLowerCase n.
Proof.
  revert r. induction l as [|temp next IH]; intros r; simpl; [done|].
  destruct (String.eqb_spec (JS.toLowerCase (name temp)) (JS.toLowerCase n))
    as [Heq|Hne].
  - intros [= <-] i t Hi. lia.
  - destruct (LinkedList.findTeam n next) as [r'|] eqn:Hr; simpl; [|done].
    intros [= <-] [|i] t Hi; simpl.
    + by intros [= <-].
    + apply (IH r' eq_refl). lia.
Qed.

Lemma findTeam_app n l k :
  LinkedList.findTeam n (l ++ k)
  = match LinkedList.findTeam n l with
    | Some r => Some r
    | None => (λ r, (length l + r)%nat) <$> LinkedList.findTeam n k
    end.
Proof.
  induction l as [|temp next IH]; simpl.
  - by destruct (LinkedList.findTeam n k).
  - destruct (String.eqb (JS.toLowerCase (name temp)) (JS.toLowerCase n));
      [done|].
    rewrite IH. destruct (LinkedList.findTeam n next); [done|].
    by destruct (LinkedList.findTeam n k).
Qed.

(** X1.  [findTeam] returns the first node whose name is the given one up
    to case: the node it returns has that name and no node before it has;
    it returns [null] only when no node has that name. *)
Theorem findTeam_first_match (n : string) (l : LinkedList.t) :
  match LinkedList.findTeam n l with
  | Some r =>
      (∃ t, l !! r = Some t ∧ JS.toLowerCase (name t) = JS.toLowerCase n)
      ∧ ∀ i t, (i < r)%nat → l !! i = Some t →
          JS.toLowerCase (name t) ≠ JS.toLowerCase n
  | None => Forall (λ t, JS.toLowerCase (name t) ≠ JS.toLowerCase n) l
  end.
Proof.
  destruct (LinkedList.findTeam n l) as [r|] eqn:Hr.
  - split; [by apply findTeam_lookup|by apply findTeam_first].
  - by apply findTeam_None.
Qed.

(** X2.  After [addTeam], a name that was found before is found at the
    same node; a name that was not found is found at the new node, the one
    [addTeam] returns, when it is the new team's name up to case, and is
    still not found otherwise. *)
Theorem findTeam_after_addTeam (n : string) (teamData : TeamData.t)
    (T : IPLTournament) :
  ∃ r T',
    addTeam teamData T = (Normal r, T')
    ∧ matchHistory T' = matchHistory T
    ∧ upcomingMatches T' = upcomingMatches T
    ∧ LinkedList.findTeam n (teams T')
      = match LinkedList.findTeam n (teams T) with
        | Some r0 => Some r0
        | None =>
            if String.eqb (JS.toLowerCase (TeamData.name teamData))
                 (JS.toLowerCase n)
            then Some r else None
        end.
Proof.
  exists (length (teams T)). eexists. split; [done|]. simpl.
  split; [done|]. split; [done|].
  rewrite findTeam_app. destruct (LinkedList.findTeam n (teams T)); [done|].
  simpl.
  destruct (String.eqb (JS.toLowerCase (TeamData.name teamData))
              (JS.toLowerCase n)); simpl; [|done].
  f_equal. lia.
Qed.

Lemma lower_upper_ascii c : JS.lower_ascii (JS.upper_ascii c) = JS.lower_ascii c.
Proof.
  destruct c as [[] [] [] [] [] [] [] []]; reflexivity.
Qed.

Lemma lower_lower_ascii c : JS.lower_ascii (JS.lower_ascii c) = JS.lower_ascii c.
Proof.
  destruct c as [[] [] [] [] [] [] [] []]; reflexivity.
Qed.

Lemma toLowerCase_toUpperCase s :
  JS.toLowerCase (JS.toUpperCase s) = JS.toLowerCase s.
Proof.
  unfold JS.toLowerCase, JS.toUpperCase.
  induction s as [|c s IH]; simpl; [done|].
  by rewrite IH, lower_upper_ascii.
Qed.

Lemma toLowerCase_idemp s : JS.toLowerCase (JS.toLowerCase s) = JS.toLowerCase s.
Proof.
  unfold JS.toLowerCase.
  induction s as [|c s IH]; simpl; [done|].
  by rewrite IH, lower_lower_ascii.
Qed.

(** X3.  The lookup does not see the case of ASCII letters: the name in
    upper case and the name in lower case are found where the name is. *)
Theorem findTeam_ignores_case (n : string) (l : LinkedList.t) :
  LinkedList.findTeam (JS.toUpperCase n) l = LinkedList.findTeam n l
  ∧ LinkedList.findTeam (JS.toLowerCase n) l = LinkedList.findTeam n l.
Proof.
  split; apply findTeam_case.
  - apply toLowerCase_toUpperCase.
  - apply toLowerCase_idemp.
Qed.

Lemma findIndex_spec {A} (p : A → bool) (a : list A) :
  (LinkedList.findIndex p a = -1 ∧ Forall (λ x, p x = false) a)
  ∨ ∃ k x,
      LinkedList.findIndex p a = Z.of_nat k
      ∧ a !! k = Some x ∧ p x = true
      ∧ ∀ i y, (i < k)%nat → a !! i = Some y → p y = false.
Proof.
  induction a as [|x a IH]; simpl.
  - left. by split.
  - destruct (p x) eqn:Hx.
    + right. exists 0%nat, x. repeat split; [done..|]. intros i y Hi. lia.
    + destruct IH as [[-> Hall]|(k & y & -> & Hk & Hy & Hbefore)].
      * left. simpl. split; [done|]. by constructor.
      * right. exists (S k), y.
        destruct (Z.ltb_spec (Z.of_nat k) 0); [lia|].
        split; [lia|]. split; [done|]. split; [done|].
        intros [|i] z Hi; simpl; [by intros [= <-]|].
        apply Hbefore. lia.
Qed.

(** X4.  [getRanking] returns [0] exactly for a name that [findTeam] does
    not find.  For a name that is found it returns a position between [1]
    and the number of teams, and the team at that position of the
    standings is the first one there with that name up to case. *)
Theorem getRanking_position (n : string) (l : LinkedList.t) :
  match LinkedList.findTeam n l with
  | None => LinkedList.getRanking n l = 0
  | Some _ =>
      ∃ k t,
        LinkedList.getRanking n l = Z.of_nat k + 1
        ∧ (k < length l)%nat
        ∧ LinkedList.getStandings l !! k = Some t
        ∧ JS.toLowerCase (name t) = JS.toLowerCase n
        ∧ ∀ i t', (i < k)%nat → LinkedList.getStandings l !! i = Some t' →
            JS.toLowerCase (name t') ≠ JS.toLowerCase n
  end.
Proof.
  unfold LinkedList.getRanking.
  destruct (findIndex_spec
              (λ t, String.eqb (JS.toLowerCase (name t)) (JS.toLowerCase n))
              (LinkedList.getStandings l))
    as [[-> Hall]|(k & t & -> & Hk & Ht & Hbefore)].
  - destruct (LinkedList.findTeam n l) as [r|] eqn:Hr; [|done].
    apply findTeam_lookup in Hr as (t & Ht & Hname).
    apply list_elem_of_lookup_2 in Ht.
    rewrite <- getAllTeams_nodes, <- getStandings_Permutation in Ht.
    rewrite Forall_forall in Hall. specialize (Hall t Ht). simpl in Hall.
    by rewrite Hname, String.eqb_refl in Hall.
  - apply String.eqb_eq in Ht.
    destruct (LinkedList.findTeam n l) as [r|] eqn:Hr.
    + exists k, t. split; [done|]. split.
      { apply lookup_lt_Some in Hk.
        by rewrite getStandings_Permutation, getAllTeams_nodes in Hk. }
      split; [done|]. split; [done|].
      intros i t' Hi Hi'. specialize (Hbefore i t' Hi Hi'). simpl in Hbefore.
      by apply String.eqb_neq.
    + apply findTeam_None in Hr. rewrite Forall_forall in Hr.
      destruct (Hr t); [|done].
      apply list_elem_of_lookup_2 in Hk.
      by rewrite getStandings_Permutation, getAllTeams_nodes in Hk.
Qed.

(** ** Further properties: the stack and the queue *)

Lemma last_snoc_Some {A} (l : list A) x : last (l ++ [x]) = Some x.
Proof. by rewrite last_snoc. Qed.

(** X5.  The stack is last in, first out: after [push], [pop] and [peek]
    give the item pushed, [pop] leaves the stack as it was before the
    [push], the size is one more, and [getAll] lists the new item first;
    on the empty stack [pop] and [peek] give [undefined] and [pop] leaves
    it empty. *)
Theorem Stack_push_pop {A} (item : A) (items : list A) :
  Stack.pop (Stack.push item items) = (Some item, items)
  ∧ Stack.peek (Stack.push item items) = Some item
  ∧ Stack.size (Stack.push item items) = S (Stack.size items)
  ∧ Stack.isEmpty (Stack.push item items) = false
  ∧ Stack.getAll (Stack.push item items) = item :: Stack.getAll items
  ∧ Stack.pop (@Stack.new A) = (None, Stack.new)
  ∧ Stack.peek (@Stack.new A) = None
  ∧ Stack.isEmpty (@Stack.new A) = true.
Proof.
  unfold Stack.pop, Stack.peek, Stack.size, Stack.isEmpty, Stack.getAll,
    Stack.push, Stack.new.
  rewrite last_snoc, removelast_last, length_app, reverse_snoc. simpl.
  repeat split; [lia|].
  apply Nat.eqb_neq. lia.
Qed.

(** X6.  The queue is first in, first out: after [enqueue], [dequeue] and
    [front] give the item at the head, which is the new item only when the
    queue was empty, and the new item is behind all the others; on the
    empty queue [dequeue] and [front] give [undefined]. *)
Theorem Queue_enqueue_dequeue {A} (item : A) (items : list A) :
  Queue.dequeue (Queue.enqueue item items)
  = match items with
    | [] => (Some item, [])
    | first :: rest => (Some first, Queue.enqueue item rest)
    end
  ∧ Queue.front (Queue.enqueue item items)
    = Some (default item (Queue.front items))
  ∧ Queue.getAll (Queue.enqueue item items) = Queue.getAll items ++ [item]
  ∧ Queue.size (Queue.enqueue item items) = S (Queue.size items)
  ∧ Queue.dequeue (@Queue.new A) = (None, Queue.new)
  ∧ Queue.front (@Queue.new A) = None.
Proof.
  unfold Queue.dequeue, Queue.front, Queue.getAll, Queue.size, Queue.enqueue,
    Queue.new.
  rewrite length_app. simpl.
  destruct items; simpl; repeat split; lia.
Qed.

(** X7.  Matches announced one after the other are listed by
    [getUpcomingMatches] in the order announced, behind those announced
    before; announcing changes neither the teams nor the history. *)
Theorem getUpcomingMatches_in_order (announced : list Fixture)
    (T : IPLTournament) :
  let T' := foldl (λ T0 matchData, after (CallAddUpcomingMatch matchData) T0)
              T announced in
  getUpcomingMatches T' = (Normal (upcomingMatches T ++ announced), T')
  ∧ teams T' = teams T
  ∧ matchHistory T' = matchHistory T.
Proof.
  revert T. induction announced as [|x xs IH]; intros T; cbn [foldl].
  - simpl. by rewrite app_nil_r.
  - destruct (IH (after (CallAddUpcomingMatch x) T)) as (Hget & Hteams & Hhist).
    cbv zeta in *. split; [|done].
    rewrite Hget. simpl. unfold Queue.enqueue. by rewrite <- app_assoc.
Qed.

(** ** Further properties: recording a match *)

Lemma lookup_alter_pair (f g : TeamNode → TeamNode) r1 r2
    (l : list TeamNode) t1 t2 :
  r1 ≠ r2 → l !! r1 = Some t1 → l !! r2 = Some t2 →
  alter f r1 (alter g r2 l) !! r1 = Some (f t1)
  ∧ alter f r1 (alter g r2 l) !! r2 = Some (g t2).
Proof.
  intros Hne H1 H2. split.
  - by rewrite list_lookup_alter_eq, list_lookup_alter_ne, H1.
  - by rewrite list_lookup_alter_ne, list_lookup_alter_eq, H2.
Qed.

(** X8.  When [recordMatch] is called on two different nodes with different
    scores, the [winner] of the match it returns is the name of the
    higher-scoring side as the caller wrote it; that team gets one more
    win, two more points and a ["W"] in front of its form, the other team
    gets one more loss, no point and an ["L"]; [noResults] stays as it is
    for both. *)
Theorem recordMatch_decided (a : Args.t) (now : Z) (T : IPLTournament)
    (r1 r2 : nat) :
  LinkedList.findTeam (Args.team1 a) (teams T) = Some r1 →
  LinkedList.findTeam (Args.team2 a) (teams T) = Some r2 →
  r1 ≠ r2 →
  Args.team1Score a ≠ Args.team2Score a →
  let first_wins := Args.team2Score a <? Args.team1Score a in
  let w := if first_wins then r1 else r2 in
  let l := if first_wins then r2 else r1 in
  let wname := if first_wins then Args.team1 a else Args.team2 a in
  ∃ m T' tw tl tw' tl',
    recordMatch a now T = (Normal m, T')
    ∧ winner m = wname ∧ result m = ResultWinner wname
    ∧ teams T !! w = Some tw ∧ teams T' !! w = Some tw'
    ∧ teams T !! l = Some tl ∧ teams T' !! l = Some tl'
    ∧ wins tw' = wins tw + 1 ∧ losses tw' = losses tw
    ∧ points tw' = points tw + 2 ∧ noResults tw' = noResults tw
    ∧ form tw' = take 5 ("W" :: form tw)
    ∧ wins tl' = wins tl ∧ losses tl' = losses tl + 1
    ∧ points tl' = points tl ∧ noResults tl' = noResults tl
    ∧ form tl' = take 5 ("L" :: form tl).
Proof.
  destruct a as [n1 n2 s1 s2]. cbn [Args.team1 Args.team2 Args.team1Score
    Args.team2Score]. intros H1 H2 Hne Hscore.
  destruct (findTeam_lookup _ _ _ H1) as (t1 & Ht1 & _).
  destruct (findTeam_lookup _ _ _ H2) as (t2 & Ht2 & _).
  pose proof (recordMatch_distinct (Args.mk n1 n2 s1 s2) now T r1 r2 H1 H2 Hne)
    as Hrun.
  cbn [Args.team1 Args.team2 Args.team1Score Args.team2Score] in Hrun.
  destruct (lookup_alter_pair (settled s1 s2) (settled s2 s1) r1 r2 (teams T)
              t1 t2 Hne Ht1 Ht2) as [Hl1 Hl2].
  exists (recorded (Args.mk n1 n2 s1 s2) now). eexists.
  destruct (Z.ltb_spec s2 s1) as [Hlt|Hge]; cbv zeta.
  - exists t1, t2, (settled s1 s2 t1), (settled s2 s1 t2).
    split; [exact Hrun|]. cbn [teams]. rewrite Hl1, Hl2.
    unfold settled, recorded.
    destruct (Z.ltb_spec s2 s1), (Z.ltb_spec s1 s2); try lia. simpl.
    rewrite !(slice0_take 5). repeat split; done.
  - exists t2, t1, (settled s2 s1 t2), (settled s1 s2 t1).
    split; [exact Hrun|]. cbn [teams]. rewrite Hl1, Hl2.
    unfold settled, recorded.
    destruct (Z.ltb_spec s2 s1), (Z.ltb_spec s1 s2); try lia. simpl.
    rewrite !(slice0_take 5). repeat split; done.
Qed.

Lemma fmap_alter_same {B} (f : TeamNode → B) (g : TeamNode → TeamNode) i
    (l : list TeamNode) :
  (∀ t, f (g t) = f t) → f <$> alter g i l = f <$> l.
Proof.
  intros Hfg. revert i. induction l as [|t l IH]; intros [|i]; csimpl;
    [done..| |]; by rewrite ?Hfg, ?IH.
Qed.

Lemma findTeam_names n l l' :
  name <$> l = name <$> l' →
  LinkedList.findTeam n l = LinkedList.findTeam n l'.
Proof.
  revert l'. induction l as [|t l IH]; intros [|t' l']; csimpl; try done.
  intros [= -> Hl]. by rewrite (IH l').
Qed.

(** The fields that identify a team. *)
Lemma recordMatch_teams_identity {B} (f : TeamNode → B) a now T :
  (∀ s1 s2 t, f (settled s1 s2 t) = f t) →
  (∀ s1 s2 t, f (settled_twice s1 s2 t) = f t) →
  f <$> teams (recordMatch a now T).2 = f <$> teams T.
Proof.
  intros Hs Ht.
  destruct (recordMatch_cases a now T)
    as [->|[(r1 & r2 & _ & _ & _ & ->)|(r & _ & _ & ->)]]; simpl.
  - done.
  - by rewrite !fmap_alter_same.
  - by rewrite fmap_alter_same.
Qed.

(** X9.  Whether it returns or throws, [recordMatch] adds and removes no
    team and changes no name, short name, captain, home ground or colour;
    every name is found where it was found before; the nodes other than
    the two it looked up are as they were; and the upcoming matches are
    as they were. *)
Theorem recordMatch_keeps_registry (a : Args.t) (now : Z)
    (T : IPLTournament) :
  let T' := (recordMatch a now T).2 in
  name <$> teams T' = name <$> teams T
  ∧ shortName <$> teams T' = shortName <$> teams T
  ∧ captain <$> teams T' = captain <$> teams T
  ∧ homeGround <$> teams T' = homeGround <$> teams T
  ∧ color <$> teams T' = color <$> teams T
  ∧ (∀ n, LinkedList.findTeam n (teams T') = LinkedList.findTeam n (teams T))
  ∧ (∀ i,
        LinkedList.findTeam (Args.team1 a) (teams T) ≠ Some i →
        LinkedList.findTeam (Args.team2 a) (teams T) ≠ Some i →
        teams T' !! i = teams T !! i)
  ∧ upcomingMatches T' = upcomingMatches T.
Proof.
  intros T'. subst T'.
  assert (name <$> teams (recordMatch a now T).2 = name <$> teams T) as Hname
    by (by apply recordMatch_teams_identity).
  split; [done|].
  do 4 (split; [by apply recordMatch_teams_identity|]).
  split; [intros n; by apply findTeam_names|].
  destruct (recordMatch_cases a now T)
    as [->|[(r1 & r2 & -> & -> & _ & ->)|(r & -> & -> & ->)]]; simpl.
  - done.
  - split; [|done]. intros i Hi1 Hi2.
    rewrite !list_lookup_alter_ne; [done|congruence..].
  - split; [|done]. intros i Hi1 Hi2.
    rewrite !list_lookup_alter_ne; [done|congruence].
Qed.

(** X10.  A call of [recordMatch] that returns puts the match it returns on
    top of the history, which grows by one; the history route then lists
    that match first.  A call that throws leaves the history as it is. *)
Theorem recordMatch_then_history (a : Args.t) (now : Z) (T : IPLTournament) :
  match recordMatch a now T with
  | (Normal m, T') =>
      Stack.size (matchHistory T') = S (Stack.size (matchHistory T))
      ∧ Stack.peek (matchHistory T') = Some m
      ∧ get_matches_history T'
        = (Normal (m :: take 49 (Stack.getAll (matchHistory T))), T')
      ∧ team1 m = Args.team1 a ∧ team2 m = Args.team2 a
      ∧ team1Score m = Args.team1Score a ∧ team2Score m = Args.team2Score a
      ∧ date m = now
  | (Throw _, T') => matchHistory T' = matchHistory T
  end.
Proof.
  destruct (recordMatch a now T) as [[m|e] T'] eqn:Hrun.
  - destruct (recordMatch_pushes _ _ _ _ _ Hrun) as [-> Hpush].
    unfold Stack.size, Stack.peek, get_matches_history, getMatchHistory, reads,
      Stack.getAll.
    rewrite !Hpush, length_app, last_snoc, reverse_snoc. simpl.
    split; [lia|]. split; [done|].
    split; [by rewrite (slice0_take 50)|].
    destruct a as [n1 n2 s1 s2]. simpl.
    by destruct (s2 <? s1), (s1 <? s2).
  - destruct (recordMatch_cases a now T)
      as [Hc|[(r1 & r2 & _ & _ & _ & Hc)|(r & _ & _ & Hc)]];
      rewrite Hc in Hrun; [|done..]. by injection Hrun as _ <-.
Qed.

(** ** Further properties: what the counters keep *)

Lemma total_app f l k : total f (l ++ k) = total f l + total f k.
Proof. unfold total. induction l as [|t l IH]; simpl; lia. Qed.

Lemma total_alter f g i l t :
  l !! i = Some t → total f (alter g i l) = total f l + f (g t) - f t.
Proof.
  unfold total.
  revert i. induction l as [|t' l IH]; intros [|i]; csimpl; try done.
  - intros [= ->]. lia.
  - intros Hi. specialize (IH i Hi). lia.
Qed.

Lemma total_alter_pair f g1 g2 r1 r2 l t1 t2 :
  r1 ≠ r2 → l !! r1 = Some t1 → l !! r2 = Some t2 →
  total f (alter g1 r1 (alter g2 r2 l))
  = total f l + (f (g1 t1) - f t1) + (f (g2 t2) - f t2).
Proof.
  intros Hne H1 H2.
  rewrite (total_alter f g1 r1 _ t1), (total_alter f g2 r2 _ t2);
    [lia|done|].
  by rewrite list_lookup_alter_ne.
Qed.

Lemma form_symbol_take (n : nat) (l : list string) :
  Forall (λ o, o = "W" ∨ o = "L" ∨ o = "T") l →
  Forall (λ o, o = "W" ∨ o = "L" ∨ o = "T") (take n l).
Proof. apply Forall_take. Qed.

Lemma settled_earned mine theirs t : earned t → earned (settled mine theirs t).
Proof.
  unfold earned, settled. intros (Hp & Hm & Hlen & Hform).
  cbn -[Nat.min take Z.to_nat JS.slice0].
  rewrite (slice0_take 5), length_take. cbn -[Nat.min take Z.to_nat].
  split; [destruct (theirs <? mine), (mine <? theirs); lia|].
  split; [lia|]. split; [lia|].
  apply form_symbol_take. constructor; [|done].
  destruct (theirs <? mine), (mine <? theirs); auto.
Qed.

Lemma settled_twice_earned score1 score2 t :
  earned t → earned (settled_twice score1 score2 t).
Proof.
  unfold earned, settled_twice. intros (Hp & Hm & Hlen & Hform).
  cbn -[Nat.min take Z.to_nat JS.slice0].
  rewrite !(slice0_take 5), take_take, length_take.
  cbn -[Nat.min take Z.to_nat].
  split; [destruct ((score2 <? score1) || (score1 <? score2)); lia|].
  split; [lia|].
  split; [destruct ((score2 <? score1) || (score1 <? score2));
          cbn -[Nat.min Z.to_nat]; lia|].
  apply form_symbol_take.
  destruct ((score2 <? score1) || (score1 <? score2));
    (constructor; [auto|constructor; [auto|done]]).
Qed.

Lemma fresh_counters teamData :
  fresh teamData = true →
  let t := new_TeamNode teamData in
  points t = 0 ∧ matchesPlayed t = 0 ∧ wins t = 0 ∧ losses t = 0
  ∧ noResults t = 0 ∧ runsScored t = 0 ∧ runsConceded t = 0 ∧ form t = [].
Proof.
  unfold fresh, zeroed. simpl.
  rewrite !andb_true_iff, !Z.eqb_eq, Nat.eqb_eq.
  intros [[[[[[[? ?] ?] ?] ?] ?] ?] Hform].
  repeat split; try done.
  by destruct (JS.or_empty (TeamData.form teamData)).
Qed.

Lemma after_earned c T :
  registers_fresh c = true →
  Forall earned (teams T) → Forall earned (teams (after c T)).
Proof.
  intros Hc HT. destruct c as [teamData|a now|matchData|]; simpl in *.
  - apply Forall_app. split; [done|].
    constructor; [|constructor].
    destruct (fresh_counters teamData Hc)
      as (Hp & Hm & Hw & Hl & Hn & _ & _ & Hf).
    unfold earned. rewrite Hp, Hm, Hw, Hn, Hf. simpl.
    repeat split; [lia|constructor].
  - destruct (recordMatch_cases a now T)
      as [->|[(r1 & r2 & _ & _ & _ & ->)|(r & _ & _ & ->)]]; simpl.
    + done.
    + do 2 (apply Forall_alter; [|intros; by apply settled_earned]). done.
    + apply Forall_alter; [done|]. intros. by apply settled_twice_earned.
  - done.
  - constructor.
Qed.

Lemma after_balanced c T :
  registers_fresh c = true → balanced T → balanced (after c T).
Proof.
  intros Hc (Hp & Hm & Hw & Hr).
  destruct c as [teamData|a now|matchData|]; simpl in *.
  - destruct (fresh_counters teamData Hc)
      as (Hp' & Hm' & Hw' & Hl' & _ & Hrs' & Hrc' & _).
    simpl in Hp', Hm', Hw', Hl', Hrs', Hrc'.
    unfold balanced. simpl. rewrite !total_app. simpl.
    rewrite Hp', Hm', Hw', Hl', Hrs', Hrc'. lia.
  - destruct (recordMatch_cases a now T)
      as [->|[(r1 & r2 & H1 & H2 & Hne & ->)|(r & H1 & _ & ->)]];
      unfold balanced; simpl.
    + done.
    + destruct (findTeam_lookup _ _ _ H1) as (t1 & Ht1 & _).
      destruct (findTeam_lookup _ _ _ H2) as (t2 & Ht2 & _).
      rewrite !(total_alter_pair _ _ _ r1 r2 _ t1 t2) by done.
      unfold Stack.push. rewrite length_app. simpl.
      destruct (Args.team2Score a <? Args.team1Score a) eqn:E1,
        (Args.team1Score a <? Args.team2Score a) eqn:E2; lia.
    + destruct (findTeam_lookup _ _ _ H1) as (t & Ht & _).
      rewrite !(total_alter _ _ r _ t) by done.
      unfold Stack.push. rewrite length_app. simpl.
      destruct ((Args.team2Score a <? Args.team1Score a)
                || (Args.team1Score a <? Args.team2Score a)); lia.
  - done.
  - unfold balanced. simpl. lia.
Qed.

(** X11.  Start from the empty tournament and make any sequence of calls
    in which every registration gives no counter and no form.  After
    every call, every team has [points = 2 * wins + noResults], a form
    with as many entries as it has played matches, up to five, and only
    ["W"], ["L"] and ["T"] in its form. *)
Theorem points_and_form_after_every_call (cs : list call) :
  Forall (λ c, registers_fresh c = true) cs →
  Forall (λ T, Forall earned (teams T)) (states cs new_IPLTournament).
Proof.
  intros Hcs.
  assert (Forall earned (teams new_IPLTournament)) as H0 by constructor.
  revert H0. generalize new_IPLTournament.
  induction Hcs as [|c cs Hc _ IH]; intros T HT; simpl; constructor.
  - by apply after_earned.
  - apply IH. by apply after_earned.
Qed.

(** X12.  Under the same condition, after every call the points of all
    teams add up to twice the number of matches in the history, and so do
    their [matchesPlayed]; the wins of all teams add up to their losses,
    and the runs scored by all teams to the runs conceded. *)
Theorem totals_after_every_call (cs : list call) :
  Forall (λ c, registers_fresh c = true) cs →
  Forall balanced (states cs new_IPLTournament).
Proof.
  intros Hcs.
  assert (balanced new_IPLTournament) as H0 by (unfold balanced; simpl; lia).
  revert H0. generalize new_IPLTournament.
  induction Hcs as [|c cs Hc _ IH]; intros T HT; simpl; constructor.
  - by apply after_balanced.
  - apply IH. by apply after_balanced.
Qed.

(** ** Further properties: reading a score *)

Ltac eval_digit :=
  match goal with
  | |- context [JS.digit ?r ?c] =>
      let v := eval vm_compute in (JS.digit r c) in
      change (JS.digit r c) with v
  end.

Lemma digits_acc d acc :
  JS.digits 10 (Some (Z.pos acc)) (NilEmpty.string_of_uint d)
  = Some (Z.pos (Pos.of_uint_acc d acc)).
Proof.
  revert acc. induction d; intros acc;
    cbn [NilEmpty.string_of_uint JS.digits Pos.of_uint_acc]; [done|..].
  all: eval_digit; cbn [default from_option]; unfold id; rewrite <- IHd; do 2 f_equal; lia.
Qed.

Lemma digits_uint d :
  JS.digits 10 (Some 0) (NilEmpty.string_of_uint d)
  = Some (Z.of_N (Pos.of_uint d)).
Proof.
  induction d; cbn [NilEmpty.string_of_uint JS.digits Pos.of_uint]; [done|..].
  all: eval_digit; cbn [default from_option]; unfold id.
  - exact IHd.
  - apply (digits_acc d 1).
  - apply (digits_acc d 2).
  - apply (digits_acc d 3).
  - apply (digits_acc d 4).
  - apply (digits_acc d 5).
  - apply (digits_acc d 6).
  - apply (digits_acc d 7).
  - apply (digits_acc d 8).
  - apply (digits_acc d 9).
Qed.

Lemma digits_first d :
  d ≠ Decimal.Nil →
  JS.digits 10 None (NilEmpty.string_of_uint d)
  = Some (Z.of_N (Pos.of_uint d)).
Proof.
  destruct d; [done|..]; intros _;
    cbn [NilEmpty.string_of_uint JS.digits Pos.of_uint].
  all: eval_digit; cbn [default from_option]; unfold id.
  - apply digits_uint.
  - apply (digits_acc d 1).
  - apply (digits_acc d 2).
  - apply (digits_acc d 3).
  - apply (digits_acc d 4).
  - apply (digits_acc d 5).
  - apply (digits_acc d 6).
  - apply (digits_acc d 7).
  - apply (digits_acc d 8).
  - apply (digits_acc d 9).
Qed.

(** The text of a number has no white space in front, no sign and no
    [0x]. *)
Lemma parseInt_string_uint d :
  d ≠ Decimal.Nil →
  JS.parseInt_string (NilEmpty.string_of_uint d)
  = JS.digits 10 None (NilEmpty.string_of_uint d)
  ∧ JS.parseInt_string (String "-" (NilEmpty.string_of_uint d))
    = match JS.digits 10 None (NilEmpty.string_of_uint d) with
      | Some v => Some (- v)
      | None => None
      end.
Proof.
  intros Hd. unfold JS.parseInt_string.
  destruct d as [|d|d|d|d|d|d|d|d|d|d]; [done|..].
  1: destruct d.
  all: split; cbn [NilEmpty.string_of_uint JS.trim_start].
  all: match goal with
       | |- context [JS.is_space ?c] =>
           change (JS.is_space c) with false; cbv iota
       end.
  all: by destruct (JS.digits 10 None _).
Qed.

Lemma parseInt_Num z : JS.parseInt (JS.Num z) = Some z.
Proof.
  unfold JS.parseInt, JS.toString.
  destruct z as [|p|p]; [reflexivity| |].
  - unfold Z.to_int, NilZero.string_of_int, NilZero.string_of_uint.
    pose proof (DecimalPos.Unsigned.to_uint_nonnil p) as Hnil.
    destruct (parseInt_string_uint _ Hnil) as [Hparse _].
    destruct (Pos.to_uint p) eqn:Hp; [done|..];
      rewrite Hparse, digits_first by done;
      rewrite <- Hp, DecimalPos.Unsigned.of_to; done.
  - unfold Z.to_int, NilZero.string_of_int, NilZero.string_of_uint.
    pose proof (DecimalPos.Unsigned.to_uint_nonnil p) as Hnil.
    destruct (parseInt_string_uint _ Hnil) as [_ Hparse].
    destruct (Pos.to_uint p) eqn:Hp; [done|..];
      rewrite Hparse, digits_first by done;
      rewrite <- Hp, DecimalPos.Unsigned.of_to; done.
Qed.

(** X13.  A score that is a safe integer in the body, one of magnitude
    below [2^53], is read as that integer: such a number is written in
    plain decimal, [parseInt] undoes the conversion of the number to its
    text, and the [|| 0] leaves it alone. *)
Theorem score_of_number (z : Z) :
  Z.abs z < 2 ^ 53 → score_of (JS.Num z) = z.
Proof. intros _. unfold score_of. by rewrite parseInt_Num. Qed.

(** ** Further properties: the routes *)

Lemma missing_named n : n ≠ "" → missing (Some n) = false.
Proof. by destruct n. Qed.

Lemma winner_recorded_tie a now :
  Args.team1Score a = Args.team2Score a → winner (recorded a now) = "Tie".
Proof.
  destruct a as [n1 n2 s1 s2]. simpl. intros ->.
  by rewrite Z.ltb_irrefl.
Qed.

Lemma recordMatch_found a now T r1 r2 :
  LinkedList.findTeam (Args.team1 a) (teams T) = Some r1 →
  LinkedList.findTeam (Args.team2 a) (teams T) = Some r2 →
  (recordMatch a now T).1 = Normal (recorded a now).
Proof.
  intros H1 H2. destruct (decide (r1 = r2)) as [->|Hne].
  - by rewrite (recordMatch_same a now T r2).
  - by rewrite (recordMatch_distinct a now T r1 r2).
Qed.

(** X14.  A request with both names and scores that are not both zero, one
    of whose names is not registered, is answered with status 400 and the
    message [Team not found]; [recordMatch] has been called once and the
    tournament is as it was. *)
Theorem post_matches_unknown_team (body : Body.t) (now : Z)
    (T : IPLTournament) (n1 n2 : string) :
  Body.team1 body = Some n1 → Body.team2 body = Some n2 →
  n1 ≠ "" → n2 ≠ "" →
  (score_of (Body.team1Score body) =? 0)
  && (score_of (Body.team2Score body) =? 0) = false →
  LinkedList.findTeam n1 (teams T) = None
  ∨ LinkedList.findTeam n2 (teams T) = None →
  post_matches body now T
  = mkHandled (mkResponse 400 false None "Team not found")
      [Args.mk n1 n2 (score_of (Body.team1Score body))
         (score_of (Body.team2Score body))]
      T.
Proof.
  destruct body as [b1 b2 x1 x2]. cbn [Body.team1 Body.team2 Body.team1Score
    Body.team2Score]. intros -> -> Hn1 Hn2 Hscores Hfind.
  unfold post_matches. cbv beta iota zeta.
  rewrite !missing_named, Hscores by done. cbn [orb default from_option].
  unfold id. by rewrite recordMatch_not_found.
Qed.

(** X15.  While the server has only been sent requests to [/api/matches]
    and requests to [/api/teams] that give no form, so that every form is
    an array, a request with two registered names and scores that are not
    both zero is answered with status 200, the match as data and the
    message [Match recorded - <winner> won!]; the tournament is the one
    [recordMatch] leaves.  For equal scores the message reads
    [Match recorded - Tie won!]. *)
Theorem post_matches_recorded (body : Body.t) (now : Z) (T : IPLTournament)
    (n1 n2 : string) (r1 r2 : nat) :
  served T →
  Body.team1 body = Some n1 → Body.team2 body = Some n2 →
  (score_of (Body.team1Score body) =? 0)
  && (score_of (Body.team2Score body) =? 0) = false →
  LinkedList.findTeam n1 (teams T) = Some r1 →
  LinkedList.findTeam n2 (teams T) = Some r2 →
  n1 ≠ "" → n2 ≠ "" →
  let a := Args.mk n1 n2 (score_of (Body.team1Score body))
             (score_of (Body.team2Score body)) in
  post_matches body now T
  = mkHandled
      (mkResponse 200 true (Some (recorded a now))
         ("Match recorded - " +:+ winner (recorded a now) +:+ " won!"))
      [a] (recordMatch a now T).2
  ∧ (Args.team1Score a = Args.team2Score a →
     response_message (response (post_matches body now T))
     = "Match recorded - Tie won!").
Proof.
  destruct body as [b1 b2 x1 x2]. cbn [Body.team1 Body.team2 Body.team1Score
    Body.team2Score]. intros _ -> -> Hscores H1 H2 Hn1 Hn2.
  set (a := Args.mk n1 n2 (score_of x1) (score_of x2)).
  assert (post_matches (Body.mk (Some n1) (Some n2) x1 x2) now T
          = mkHandled
              (mkResponse 200 true (Some (recorded a now))
                 ("Match recorded - " +:+ winner (recorded a now) +:+ " won!"))
              [a] (recordMatch a now T).2) as Hpost.
  { unfold post_matches. cbv beta iota zeta.
    rewrite !missing_named, Hscores by done. cbn [orb default from_option].
    unfold id. fold a.
    pose proof (recordMatch_found a now T r1 r2 H1 H2) as Hrun.
    destruct (recordMatch a now T) as [c T']. simpl in Hrun. by subst c. }
  split; [exact Hpost|].
  intros Htie. rewrite Hpost. cbn [response response_message].
  by rewrite (winner_recorded_tie a now Htie).
Qed.

Lemma length_toLowerCase s :
  String.length (JS.toLowerCase s) = String.length s.
Proof.
  unfold JS.toLowerCase. induction s as [|c s IH]; simpl; [done|].
  by rewrite IH.
Qed.

Lemma trim_start_shorter s :
  JS.trim_start s = s
  ∨ (String.length (JS.trim_start s) < String.length s)%nat.
Proof.
  induction s as [|c s IH]; simpl; [by left|].
  destruct (JS.is_space c); [|by left].
  right. destruct IH as [->|IH]; lia.
Qed.

Lemma trim_end_shorter s :
  JS.trim_end s = s
  ∨ (String.length (JS.trim_end s) < String.length s)%nat.
Proof.
  induction s as [|c s IH]; simpl; [by left|].
  destruct IH as [->|IH].
  - destruct s; [|by left].
    destruct (JS.is_space c); [right; simpl; lia|by left].
  - right. destruct (JS.trim_end s); [|simpl in *; lia].
    destruct (JS.is_space c); simpl in *; lia.
Qed.

Lemma trim_shorter s :
  JS.trim s = s ∨ (String.length (JS.trim s) < String.length s)%nat.
Proof.
  unfold JS.trim.
  destruct (trim_start_shorter s) as [->|Hs]; [apply trim_end_shorter|].
  right. destruct (trim_end_shorter (JS.trim_start s)) as [->|He]; lia.
Qed.

Lemma toLowerCase_trim s :
  JS.toLowerCase (JS.trim s) = JS.toLowerCase s → JS.trim s = s.
Proof.
  intros Heq. destruct (trim_shorter s) as [|Hlt]; [done|].
  apply (f_equal String.length) in Heq.
  rewrite !length_toLowerCase in Heq. lia.
Qed.

Lemma unique_names_snoc l t :
  unique_names l →
  Forall (λ t', JS.toLowerCase (name t') ≠ JS.toLowerCase (name t)) l →
  unique_names (l ++ [t]).
Proof.
  unfold unique_names. intros Hl Hnew. rewrite fmap_app. csimpl.
  apply NoDup_app. split; [done|]. split; [|apply NoDup_singleton].
  intros x Hx Hx'. apply list_elem_of_singleton in Hx' as ->.
  apply list_elem_of_fmap in Hx as (t' & Hname & Ht').
  rewrite Forall_forall in Hnew. by apply (Hnew t' Ht').
Qed.

Lemma post_teams_added teamData T :
  JS.trim (TeamData.name teamData) ≠ "" →
  LinkedList.findTeam (JS.trim (TeamData.name teamData)) (teams T) = None →
  post_teams (Some teamData) T
  = mkTeamsHandled 201 true (Some (new_TeamNode teamData))
      "Team added successfully"
      (mkIPLTournament (teams T ++ [new_TeamNode teamData]) (matchHistory T)
         (upcomingMatches T)).
Proof.
  intros Hname Hfind. unfold post_teams.
  destruct (JS.trim (TeamData.name teamData)) as [|c s] eqn:Htrim; [done|].
  unfold getTeamStats, reads. rewrite Hfind.
  unfold addTeam, LinkedList.addTeam. cbn [teams].
  by rewrite lookup_app_r, Nat.sub_diag.
Qed.

(** The three ways the route can answer. *)
Lemma post_teams_cases (body : option TeamData.t) (T : IPLTournament) :
  let R := post_teams body T in
  (teams_status R = 201
   ∧ ∃ teamData,
       body = Some teamData
       ∧ JS.trim (TeamData.name teamData) ≠ ""
       ∧ LinkedList.findTeam (JS.trim (TeamData.name teamData)) (teams T)
         = None
       ∧ teams (teams_tournament R) = teams T ++ [new_TeamNode teamData]
       ∧ teams_data R = Some (new_TeamNode teamData)
       ∧ matchHistory (teams_tournament R) = matchHistory T
       ∧ upcomingMatches (teams_tournament R) = upcomingMatches T)
  ∨ (teams_status R = 409
     ∧ (∃ teamData r,
          body = Some teamData
          ∧ LinkedList.findTeam (JS.trim (TeamData.name teamData)) (teams T)
            = Some r)
     ∧ teams_data R = None ∧ teams_tournament R = T)
  ∨ (teams_status R = 400
     ∧ match body with
       | Some teamData => JS.trim (TeamData.name teamData) = ""
       | None => True
       end
     ∧ teams_data R = None ∧ teams_tournament R = T).
Proof.
  destruct body as [teamData|]; [|right; right; by repeat split].
  destruct (decide (JS.trim (TeamData.name teamData) = "")) as [Hb|Hb].
  { right. right. unfold post_teams. rewrite Hb. by repeat split. }
  destruct (LinkedList.findTeam (JS.trim (TeamData.name teamData)) (teams T))
    as [r|] eqn:Hfind.
  - right. left. unfold post_teams.
    destruct (JS.trim (TeamData.name teamData)) as [|c s] eqn:Htrim; [done|].
    unfold getTeamStats, reads. rewrite Hfind. cbv zeta.
    repeat split; try done.
    exists teamData, r. by rewrite Htrim.
  - left. cbv zeta. rewrite (post_teams_added teamData T Hb Hfind).
    split; [done|]. exists teamData. by repeat split.
Qed.

(** X16.  The route answers 400 to a body without a name or with a blank
    one and 409 to a name that is registered already, up to case and to
    the white space around it; in both cases the tournament is as it was
    and no data is sent.  Otherwise it answers 201, the registry has the
    new node, which is the data sent, behind the old ones, and the history
    and the upcoming matches are as they were. *)
Theorem post_teams_outcomes (body : option TeamData.t) (T : IPLTournament) :
  let R := post_teams body T in
  (teams_status R = 201
   ∧ ∃ teamData,
       body = Some teamData
       ∧ JS.trim (TeamData.name teamData) ≠ ""
       ∧ LinkedList.findTeam (JS.trim (TeamData.name teamData)) (teams T)
         = None
       ∧ teams (teams_tournament R) = teams T ++ [new_TeamNode teamData]
       ∧ teams_data R = Some (new_TeamNode teamData)
       ∧ matchHistory (teams_tournament R) = matchHistory T
       ∧ upcomingMatches (teams_tournament R) = upcomingMatches T)
  ∨ (teams_status R = 409
     ∧ (∃ teamData r,
          body = Some teamData
          ∧ LinkedList.findTeam (JS.trim (TeamData.name teamData)) (teams T)
            = Some r)
     ∧ teams_data R = None ∧ teams_tournament R = T)
  ∨ (teams_status R = 400
     ∧ match body with
       | Some teamData => JS.trim (TeamData.name teamData) = ""
       | None => True
       end
     ∧ teams_data R = None ∧ teams_tournament R = T).
Proof. apply post_teams_cases. Qed.

(** X17.  When the names of the registry are all different up to case and
    the name in the body has no white space around it, the names are all
    different after the request as well. *)
Theorem post_teams_keeps_names_unique (body : option TeamData.t)
    (T : IPLTournament) :
  unique_names (teams T) →
  (∀ teamData,
      body = Some teamData →
      JS.trim (TeamData.name teamData) = TeamData.name teamData) →
  unique_names (teams (teams_tournament (post_teams body T))).
Proof.
  intros Huniq Htrimmed.
  destruct (post_teams_cases body T)
    as [(_ & teamData & -> & _ & Hfind & -> & _)
       |[(_ & _ & _ & ->)|(_ & _ & _ & ->)]]; [|done..].
  apply unique_names_snoc; [done|].
  rewrite (Htrimmed teamData eq_refl) in Hfind.
  by apply findTeam_None in Hfind.
Qed.

(** X18.  A name with white space around it gets past the check a second
    time: the check looks for the trimmed name while the node keeps the
    name as sent, so sending the same body twice is answered 201 twice and
    leaves two nodes with the same name. *)
Theorem post_teams_untrimmed_twice (teamData : TeamData.t)
    (T : IPLTournament) :
  JS.trim (TeamData.name teamData) ≠ TeamData.name teamData →
  JS.trim (TeamData.name teamData) ≠ "" →
  LinkedList.findTeam (JS.trim (TeamData.name teamData)) (teams T) = None →
  let R1 := post_teams (Some teamData) T in
  let R2 := post_teams (Some teamData) (teams_tournament R1) in
  teams_status R1 = 201 ∧ teams_status R2 = 201
  ∧ teams (teams_tournament R2)
    = teams T ++ [new_TeamNode teamData; new_TeamNode teamData]
  ∧ ¬ unique_names (teams (teams_tournament R2)).
Proof.
  intros Hspace Hblank Hfind R1 R2. subst R2 R1.
  rewrite (post_teams_added teamData T Hblank Hfind). cbn [teams_tournament].
  rewrite post_teams_added; [|done|].
  - cbn [teams_status teams_tournament teams]. rewrite <- app_assoc.
    split; [done|]. split; [done|]. split; [done|].
    unfold unique_names. rewrite fmap_app. csimpl.
    intros Hdup. apply NoDup_app in Hdup as (_ & _ & Hdup).
    apply NoDup_cons in Hdup as [Hin _]. apply Hin. by left.
  - cbn [teams]. rewrite findTeam_app, Hfind. simpl.
    destruct (String.eqb_spec (JS.toLowerCase (TeamData.name teamData))
                (JS.toLowerCase (JS.trim (TeamData.name teamData))))
      as [Heq|]; [|done].
    symmetry in Heq. by apply toLowerCase_trim in Heq.
Qed.

(** ** Further properties: the net run rate *)

Lemma nrr_opp t1 t2 :
  matchesPlayed t1 = matchesPlayed t2 →
  runsScored t1 - runsConceded t1 = - (runsScored t2 - runsConceded t2) →
  nrr t1 = - nrr t2.
Proof.
  unfold nrr. intros -> ->.
  destruct (0 <? matchesPlayed t2); [apply toFixed2_div_opp|done].
Qed.

(** X19.  The rounding of the net run rate is symmetric.  When two
    different teams have played the same number of matches and the run
    difference of one is the opposite of the other's, as for two teams
    that have met nobody else, then after a match between them the net run
    rate of one is the opposite of the other's. *)
Theorem recordMatch_opposite_netRunRate (a : Args.t) (now : Z)
    (T : IPLTournament) (r1 r2 : nat) (t1 t2 : TeamNode) :
  LinkedList.findTeam (Args.team1 a) (teams T) = Some r1 →
  LinkedList.findTeam (Args.team2 a) (teams T) = Some r2 →
  r1 ≠ r2 →
  teams T !! r1 = Some t1 → teams T !! r2 = Some t2 →
  matchesPlayed t1 = matchesPlayed t2 →
  runsScored t1 - runsConceded t1 = - (runsScored t2 - runsConceded t2) →
  ∃ m T' t1' t2',
    recordMatch a now T = (Normal m, T')
    ∧ teams T' !! r1 = Some t1' ∧ teams T' !! r2 = Some t2'
    ∧ netRunRate t1' = - netRunRate t2'.
Proof.
  intros H1 H2 Hne Ht1 Ht2 Hmp Hdiff.
  destruct (lookup_alter_pair
              (settled (Args.team1Score a) (Args.team2Score a))
              (settled (Args.team2Score a) (Args.team1Score a))
              r1 r2 (teams T) t1 t2 Hne Ht1 Ht2) as [Hl1 Hl2].
  exists (recorded a now). eexists. eexists. eexists.
  split; [by apply recordMatch_distinct|]. cbn [teams].
  split; [exact Hl1|]. split; [exact Hl2|].
  unfold settled. cbn [netRunRate set_form set_netRunRate].
  apply nrr_opp; cbn [matchesPlayed runsScored runsConceded]; lia.
Qed.

(** ** Further properties: short names, standings and statistics *)

Lemma upper_ascii_space c : JS.upper_ascii c = " "%char → c = " "%char.
Proof.
  destruct c as [[] [] [] [] [] [] [] []]; intros H; vm_compute in H;
    congruence.
Qed.

Lemma upper_upper_ascii c : JS.upper_ascii (JS.upper_ascii c) = JS.upper_ascii c.
Proof. destruct c as [[] [] [] [] [] [] [] []]; reflexivity. Qed.

Lemma initials_of_name s :
  let pieces := JS.split " " s in
  let rest := JS.join (JS.first_char <$> tail pieces) in
  (String.length (JS.join (JS.first_char <$> pieces)) ≤ String.length s)%nat
  ∧ (String.length rest
     ≤ String.length (JS.join (JS.first_char <$> pieces)))%nat
  ∧ (" "%char ∉ String.list_ascii_of_string (JS.join (JS.first_char <$> pieces)))
  ∧ (" "%char ∉ String.list_ascii_of_string rest).
Proof.
  induction s as [|c s IH]; cbv zeta in *.
  - simpl. repeat split; try lia; apply not_elem_of_nil.
  - destruct IH as (Hlen & Hrest & Hsp & Hsprest). cbn [JS.split].
    destruct (Ascii.eqb_spec c " ") as [->|Hc].
    + csimpl. repeat split; try done; lia.
    + destruct (JS.split " " s) as [|w ws] eqn:Hsplit; csimpl in *.
      * repeat split; try lia; [|apply not_elem_of_nil].
        rewrite not_elem_of_cons. split; [done|apply not_elem_of_nil].
      * repeat split; try lia; [|done].
        rewrite not_elem_of_cons. by split.
Qed.

Lemma length_map_string f s :
  String.length (JS.map_string f s) = String.length s.
Proof. induction s as [|c s IH]; simpl; [done|]. by rewrite IH. Qed.

Lemma toUpperCase_no_space s :
  " "%char ∉ String.list_ascii_of_string s →
  " "%char ∉ String.list_ascii_of_string (JS.toUpperCase s).
Proof.
  unfold JS.toUpperCase. induction s as [|c s IH]; simpl; [done|].
  rewrite !not_elem_of_cons. intros [Hc Hs]. split; [|by apply IH].
  intros Heq. symmetry in Heq. by apply upper_ascii_space in Heq.
Qed.

Lemma toUpperCase_idemp s : JS.toUpperCase (JS.toUpperCase s) = JS.toUpperCase s.
Proof.
  unfold JS.toUpperCase. induction s as [|c s IH]; simpl; [done|].
  by rewrite IH, upper_upper_ascii.
Qed.

Lemma split_not_nil sep s : JS.split sep s ≠ [].
Proof.
  destruct s as [|c s]; simpl; [done|].
  destruct (Ascii.eqb c sep); [done|]. by destruct (JS.split sep s).
Qed.

Lemma join_split_initials s :
  JS.join (JS.first_char <$> JS.split " " s) = initials true s
  ∧ JS.join (JS.first_char <$> tail (JS.split " " s)) = initials false s.
Proof.
  induction s as [|c s [IH1 IH2]]; [done|]. cbn [JS.split initials].
  destruct (Ascii.eqb c " "); [by split|].
  pose proof (split_not_nil " " s) as Hnil.
  destruct (JS.split " " s) as [|w ws]; [done|]. csimpl in *.
  by rewrite IH2.
Qed.

(** X20.  For a name of ASCII characters: a short name that is given and
    not empty is kept.  Otherwise the short name is made of the first
    characters of the words of the name, in upper case; it has no space in
    it, it is not longer than the name, and it has no lower-case letter
    (putting it in upper case again changes nothing). *)
Theorem new_TeamNode_shortName (teamData : TeamData.t) :
  ascii_only (TeamData.name teamData) →
  match TeamData.shortName teamData with
  | Some (String c s) => shortName (new_TeamNode teamData) = String c s
  | _ =>
      shortName (new_TeamNode teamData)
      = JS.toUpperCase (initials true (name (new_TeamNode teamData)))
      ∧ (" "%char
         ∉ String.list_ascii_of_string (shortName (new_TeamNode teamData)))
      ∧ (String.length (shortName (new_TeamNode teamData))
         ≤ String.length (name (new_TeamNode teamData)))%nat
      ∧ JS.toUpperCase (shortName (new_TeamNode teamData))
        = shortName (new_TeamNode teamData)
  end.
Proof.
  intros _.
  pose proof (initials_of_name (TeamData.name teamData))
    as (Hlen & _ & Hsp & _).
  destruct (join_split_initials (TeamData.name teamData)) as [Hinit _].
  assert (JS.toUpperCase
            (JS.join (JS.first_char <$> JS.split " " (TeamData.name teamData)))
          = JS.toUpperCase (initials true (TeamData.name teamData))
          ∧ (" "%char ∉ String.list_ascii_of_string
            (JS.toUpperCase
               (JS.join (JS.first_char <$> JS.split " " (TeamData.name teamData)))))
          ∧ (String.length
               (JS.toUpperCase
                  (JS.join
                     (JS.first_char <$> JS.split " " (TeamData.name teamData))))
             ≤ String.length (TeamData.name teamData))%nat
          ∧ JS.toUpperCase
              (JS.toUpperCase
                 (JS.join
                    (JS.first_char <$> JS.split " " (TeamData.name teamData))))
            = JS.toUpperCase
                (JS.join
                   (JS.first_char <$> JS.split " " (TeamData.name teamData))))
    as Hderived.
  { split; [by rewrite Hinit|].
    split; [by apply toUpperCase_no_space|].
    split; [|apply toUpperCase_idemp].
    unfold JS.toUpperCase. by rewrite length_map_string. }
  destruct teamData as [n [[|c s]|] ? ? ? ? ? ? ? ? ? ? ? ?]; simpl in *; done.
Qed.

(** X21.  Teams with the same points and the same net run rate stand in
    the standings in the order of their registration. *)
Theorem getStandings_ties_in_registration_order (t : TeamNode)
    (T : IPLTournament) :
  ∃ s,
    getStandings T = (Normal s, T)
    ∧ filter (λ u, points u = points t ∧ netRunRate u = netRunRate t) s
      = filter (λ u, points u = points t ∧ netRunRate u = netRunRate t)
          (teams T).
Proof.
  exists (LinkedList.getStandings (teams T)). split; [done|].
  assert (∀ u, LinkedList.compareFn t u = 0
               ↔ points u = points t ∧ netRunRate u = netRunRate t) as Hiff.
  { intros u. unfold LinkedList.compareFn.
    destruct (Z.eqb_spec (points u - points t) 0); lia. }
  rewrite <- !(list_filter_iff _ _ _ Hiff).
  apply getStandings_stable.
Qed.

(** X22.  With a negative limit [k], [getMatchHistory] leaves out the
    [-k] oldest matches instead of keeping that many of the newest: it
    returns the matches pushed after the first [-k], the most recent
    first, and so nothing when the history has no more than [-k]
    matches. *)
Theorem getMatchHistory_with_negative_limit (T : IPLTournament) (k : Z) :
  k < 0 →
  getMatchHistory (Some k) T
  = (Normal (reverse (drop (Z.to_nat (- k)) (matchHistory T))), T).
Proof. apply getMatchHistory_negative_limit. Qed.

Lemma findTeam_of_node t l :
  t ∈ l → is_Some (LinkedList.findTeam (name t) l).
Proof.
  induction l as [|temp next IH]; simpl; [by intros ?%elem_of_nil|].
  intros Hin.
  destruct (String.eqb_spec (JS.toLowerCase (name temp))
              (JS.toLowerCase (name t))); [by eexists|].
  apply elem_of_cons in Hin as [->|Hin]; [done|].
  destruct (IH Hin) as [r ->]. by eexists.
Qed.

(** X23.  [getTournamentStats] leaves the tournament as it is and reports
    the number of teams, the number of matches in the history and at most
    four names, each of which [getTeamStats] finds. *)
Theorem getTournamentStats_report (T : IPLTournament) :
  ∃ playoffTeams,
    getTournamentStats T
    = (Normal (length (teams T), length (matchHistory T), playoffTeams), T)
    ∧ length playoffTeams = Nat.min 4 (length (teams T))
    ∧ Forall (λ n, ∃ r, getTeamStats n T = (Normal (Some r), T)) playoffTeams.
Proof.
  exists (name <$> take 4 (LinkedList.getStandings (teams T))).
  split; [|split].
  - unfold getTournamentStats, getPlayoffTeams, getStandings, mbind,
      method_bind, reads, mret, method_ret.
    by rewrite getAllTeams_nodes, (slice0_take 4).
  - by rewrite length_fmap, length_take, getStandings_Permutation,
      getAllTeams_nodes.
  - rewrite Forall_fmap. apply Forall_forall. intros t Ht. simpl.
    apply elem_of_take in Ht as (i & Ht & _).
    apply list_elem_of_lookup_2 in Ht.
    rewrite getStandings_Permutation, getAllTeams_nodes in Ht.
    destruct (findTeam_of_node t (teams T) Ht) as [r Hr].
    exists r. unfold getTeamStats, reads. by rewrite Hr.
Qed.

(** X24.  A team that has more points than every other team is ranked
    first. *)
Theorem getRanking_of_the_leader (n : string) (l : LinkedList.t) (r : nat)
    (t : TeamNode) :
  LinkedList.findTeam n l = Some r →
  l !! r = Some t →
  (∀ i t', i ≠ r → l !! i = Some t' → points t' < points t) →
  LinkedList.getRanking n l = 1.
Proof.
  intros Hfind Ht Hlead.
  destruct (findTeam_lookup _ _ _ Hfind) as (t0 & Ht0 & Hname).
  assert (t0 = t) as -> by congruence.
  pose proof (getStandings_sorted l) as Hsorted.
  pose proof (getStandings_Permutation l) as Hperm.
  rewrite getAllTeams_nodes in Hperm.
  unfold LinkedList.getRanking.
  destruct (LinkedList.getStandings l) as [|h rest] eqn:Hs.
  { apply list_elem_of_lookup_2 in Ht. rewrite <- Hperm in Ht.
    by apply elem_of_nil in Ht. }
  assert (h = t) as ->.
  { assert (h ∈ l) as Hh by (rewrite <- Hperm; by left).
    apply list_elem_of_lookup_1 in Hh as [i Hi].
    destruct (decide (i = r)) as [->|Hir]; [congruence|].
    pose proof (Hlead i h Hir Hi) as Hless.
    assert (t ∈ h :: rest) as Hin
      by (rewrite Hperm; by apply list_elem_of_lookup_2 in Ht).
    apply StronglySorted_inv in Hsorted as [_ Hall].
    apply elem_of_cons in Hin as [->|Hin]; [done|].
    rewrite Forall_forall in Hall. specialize (Hall t Hin).
    unfold standings_order in Hall. lia. }
  simpl. by rewrite Hname, String.eqb_refl.
Qed.

(** ** Instances of the further properties *)

Lemma recordMatch_decided_witness :
  ∃ m T' tw' tl',
    recordMatch (Args.mk "Alpha" "Beta" 180 150) 0 two_teams = (Normal m, T')
    ∧ winner m = "Alpha"
    ∧ teams T' !! 0%nat = Some tw' ∧ teams T' !! 1%nat = Some tl'
    ∧ wins tw' = 1 ∧ points tw' = 2 ∧ form tw' = ["W"]
    ∧ losses tl' = 1 ∧ points tl' = 0 ∧ form tl' = ["L"].
Proof.
  destruct (recordMatch_decided (Args.mk "Alpha" "Beta" 180 150) 0 two_teams
              0 1)
    as (m & T' & tw & tl & tw' & tl' & Hrun & Hw & _ & Htw & Htw' & Htl & Htl'
        & Hwins & _ & Hpts & _ & Hform & _ & Hlosses & Hpts' & _ & Hform').
  - reflexivity.
  - reflexivity.
  - discriminate.
  - discriminate.
  - exists m, T', tw', tl'.
    vm_compute in Htw. injection Htw as <-.
    vm_compute in Htl. injection Htl as <-.
    cbn in Hw, Htw', Htl', Hwins, Hpts, Hform, Hlosses, Hpts', Hform'.
    repeat split; assumption.
Defined.

Lemma points_and_form_after_every_call_witness :
  Forall (λ c, registers_fresh c = true) session
  ∧ Forall (λ T, Forall earned (teams T)) (states session new_IPLTournament).
Proof.
  assert (Forall (λ c, registers_fresh c = true) session) as H
    by (repeat constructor).
  split; [exact H|].
  exact (points_and_form_after_every_call session H).
Defined.

Lemma totals_after_every_call_witness :
  Forall (λ c, registers_fresh c = true) session
  ∧ Forall balanced (states session new_IPLTournament).
Proof.
  assert (Forall (λ c, registers_fresh c = true) session) as H
    by (repeat constructor).
  split; [exact H|].
  exact (totals_after_every_call session H).
Defined.

Lemma post_matches_unknown_team_witness :
  LinkedList.findTeam "Ghost" (teams server_tournament) = None
  ∧ post_matches body_with_ghost 0 server_tournament
    = mkHandled (mkResponse 400 false None "Team not found")
        [Args.mk "Ghost" "Mumbai Indians" 100 90] server_tournament.
Proof.
  split; [reflexivity|].
  apply (post_matches_unknown_team body_with_ghost 0 server_tournament
           "Ghost" "Mumbai Indians").
  - reflexivity.
  - reflexivity.
  - discriminate.
  - discriminate.
  - reflexivity.
  - left. reflexivity.
Defined.

Lemma post_matches_recorded_witness :
  response (post_matches body_without_score1 0 server_tournament)
  = mkResponse 200 true
      (Some (mkMatch "Mumbai Indians" "Chennai Super Kings" 0 150
               "Chennai Super Kings" (ResultWinner "Chennai Super Kings") 0))
      "Match recorded - Chennai Super Kings won!".
Proof.
  destruct (post_matches_recorded body_without_score1 0 server_tournament
              "Mumbai Indians" "Chennai Super Kings" 0 1) as [Hpost _].
  - apply served_start.
  - reflexivity.
  - reflexivity.
  - reflexivity.
  - reflexivity.
  - reflexivity.
  - discriminate.
  - discriminate.
  - rewrite Hpost. reflexivity.
Defined.

Lemma post_teams_keeps_names_unique_witness :
  unique_names (teams two_teams)
  ∧ unique_names
      (teams (teams_tournament (post_teams (Some (named "Gamma")) two_teams))).
Proof.
  assert (unique_names (teams two_teams)) as H.
  { unfold unique_names. vm_compute.
    repeat (constructor; [rewrite ?not_elem_of_cons; repeat split;
                          try discriminate; apply not_elem_of_nil|]).
    constructor. }
  split; [exact H|].
  apply (post_teams_keeps_names_unique (Some (named "Gamma")) two_teams H).
  intros teamData [= <-]. reflexivity.
Defined.

Lemma post_teams_untrimmed_twice_witness :
  JS.trim (TeamData.name spaced) = "Gamma"
  ∧ teams_status
      (post_teams (Some spaced)
         (teams_tournament (post_teams (Some spaced) two_teams)))
    = 201
  ∧ name
    <$> teams
          (teams_tournament
             (post_teams (Some spaced)
                (teams_tournament (post_teams (Some spaced) two_teams))))
    = ["Alpha"; "Beta"; " Gamma"; " Gamma"].
Proof.
  destruct (post_teams_untrimmed_twice spaced two_teams)
    as (_ & Hstatus & Hteams & _).
  - discriminate.
  - discriminate.
  - reflexivity.
  - split; [reflexivity|]. split; [exact Hstatus|].
    rewrite Hteams. reflexivity.
Defined.

Lemma recordMatch_opposite_netRunRate_witness :
  ∃ m T' t1' t2',
    recordMatch (Args.mk "Alpha" "Beta" 180 150) 0 two_teams = (Normal m, T')
    ∧ teams T' !! 0%nat = Some t1' ∧ teams T' !! 1%nat = Some t2'
    ∧ netRunRate t1' = - netRunRate t2'.
Proof.
  apply (recordMatch_opposite_netRunRate (Args.mk "Alpha" "Beta" 180 150) 0
           two_teams 0 1 (new_TeamNode (named "Alpha"))
           (new_TeamNode (named "Beta"))).
  - reflexivity.
  - reflexivity.
  - discriminate.
  - reflexivity.
  - reflexivity.
  - reflexivity.
  - reflexivity.
Defined.

Lemma getMatchHistory_with_negative_limit_witness :
  -2 < 0
  ∧ date <$> matchHistory five_matches = [1; 2; 3; 4; 5]
  ∧ ∃ h,
      getMatchHistory (Some (-2)) five_matches = (Normal h, five_matches)
      ∧ date <$> h = [5; 4; 3].
Proof.
  split; [reflexivity|]. split; [reflexivity|].
  exists (reverse (drop 2 (matchHistory five_matches))).
  split; [|reflexivity].
  apply (getMatchHistory_with_negative_limit five_matches (-2)).
  reflexivity.
Defined.

Lemma getRanking_of_the_leader_witness :
  LinkedList.findTeam "alpha" (teams one_match) = Some 0%nat
  ∧ LinkedList.getRanking "alpha" (teams one_match) = 1.
Proof.
  split; [reflexivity|].
  apply (getRanking_of_the_leader "alpha" (teams one_match) 0
           (mkTeamNode "Alpha" "A" "" "" "#000000" 2 3000 1 1 0 0 180 150
              ["W"])).
  - reflexivity.
  - reflexivity.
  - intros [|[|i]] t' Hi Ht'.
    + congruence.
    + vm_compute in Ht'. injection Ht' as <-. reflexivity.
    + vm_compute in Ht'. discriminate.
Defined.

Lemma score_of_number_witness :
  Z.abs (-150) < 2 ^ 53 ∧ score_of (JS.Num (-150)) = -150.
Proof.
  split; [reflexivity|].
  apply (score_of_number (-150)). reflexivity.
Defined.

Lemma new_TeamNode_shortName_witness :
  ascii_only "royal Challengers  bangalore"
  ∧ shortName (new_TeamNode (named "royal Challengers  bangalore")) = "RCB".
Proof.
  assert (ascii_only "royal Challengers  bangalore") as H.
  { unfold ascii_only. cbn [String.list_ascii_of_string].
    repeat (constructor; [vm_compute; lia|]). constructor. }
  split; [exact H|].
  destruct (new_TeamNode_shortName (named "royal Challengers  bangalore") H)
    as (Hshort & _).
  rewrite Hshort. reflexivity.
Defined.
